(** * WhatsApp group notifier: the send-group handler and its ack wait

    A shallow embedding of the notifier's [server.js] in its revisions
    (the ack-waiting revisions [part_002] and [part_000], and the earlier
    [server.js] that validates an explicit group id through the transport).

    Conventions of the embedding.
    - A string is a sequence of code units below 256 (the Latin-1 range).
    - A number is NaN, an infinity or an integer: the program only tests
      numbers for truthiness and compares them, and the numbers it meets are
      ack codes and counts of milliseconds.
    - [Number] applied to a string is the engine's numeric-literal parser; it
      is a variable of the sections that need it.
    - A [throw] is the [Throw] of the error monad [exn]; the handler's
      [try]/[catch] turns it into the 500 response.
    - Time is the order of a trace: the event loop runs one event after the
      other, and a timer fires where the trace says so. *)

From Stdlib Require Import ZArith String Ascii List Bool Lia DecimalString.
From stdpp Require Import base option list gmap.
Import ListNotations.
Local Open Scope string_scope.

(** ** Strings *)

Module Str.

(** [String.prototype.toLowerCase] on one code unit: A-Z and the
    Latin-1 capitals U+00C0..U+00DE, the multiplication sign excepted. *)
Definition lower_char (c : ascii) : ascii :=
  let n := N_of_ascii c in
  if ((65 <=? n) && (n <=? 90))%N then ascii_of_N (n + 32)
  else if ((192 <=? n) && (n <=? 222) && negb (n =? 215))%N
       then ascii_of_N (n + 32)
       else c.

Fixpoint toLowerCase (s : string) : string :=
  match s with
  | EmptyString => EmptyString
  | String c r => String (lower_char c) (toLowerCase r)
  end.

(** White space and line terminators below 256: TAB, LF, VT, FF, CR,
    SP and NBSP. *)
Definition is_space (c : ascii) : bool :=
  let n := N_of_ascii c in
  ((n =? 9) || (n =? 10) || (n =? 11) || (n =? 12) || (n =? 13)
   || (n =? 32) || (n =? 160))%N.

Fixpoint trimStart (s : string) : string :=
  match s with
  | EmptyString => EmptyString
  | String c r => if is_space c then trimStart r else s
  end.

(** [trimEnd s] drops the trailing white space: a character is kept when
    something that is not white space follows it or it is none itself. *)
Fixpoint trimEnd (s : string) : string :=
  match s with
  | EmptyString => EmptyString
  | String c r =>
      match trimEnd r with
      | EmptyString => if is_space c then EmptyString else String c EmptyString
      | r' => String c r'
      end
  end.

Definition trim (s : string) : string := trimEnd (trimStart s).

(** Truthiness of a string: [!s] is [true] exactly on the empty string. *)
Definition nonempty (s : string) : bool :=
  match s with EmptyString => false | _ => true end.

End Str.

(** ** Numbers *)

Inductive number : Type :=
| NaN
| Inf (negative : bool)
| Fin (z : Z).

Module Num.

Definition isNaN (n : number) : bool :=
  match n with NaN => true | _ => false end.

Definition isFinite (n : number) : bool :=
  match n with Fin _ => true | _ => false end.

(** [a < b]; false as soon as one side is NaN. *)
Definition lt (a b : number) : bool :=
  match a, b with
  | NaN, _ | _, NaN => false
  | Inf true, Inf true => false
  | Inf true, _ => true
  | _, Inf true => false
  | Inf false, _ => false
  | _, Inf false => true
  | Fin x, Fin y => (x <? y)%Z
  end.

(** [a >= b]: [b < a] or equal; false as soon as one side is NaN. *)
Definition ge (a b : number) : bool :=
  match a, b with
  | NaN, _ | _, NaN => false
  | _, _ => negb (lt a b)
  end.

Definition gt (a b : number) : bool := lt b a.

(** [a === b] on numbers. *)
Definition seq (a b : number) : bool :=
  match a, b with
  | Fin x, Fin y => (x =? y)%Z
  | Inf s, Inf t => Bool.eqb s t
  | _, _ => false
  end.

Definition truthy (n : number) : bool :=
  match n with
  | NaN => false
  | Fin z => negb (z =? 0)%Z
  | Inf _ => true
  end.

(** [String(n)]; an integer prints in decimal, as it does below 1e21. *)
Definition to_string (n : number) : string :=
  match n with
  | NaN => "NaN"
  | Inf false => "Infinity"
  | Inf true => "-Infinity"
  | Fin z => NilZero.string_of_int (Z.to_int z)
  end.

End Num.

(** ** The error monad *)

Inductive exn (A : Type) : Type :=
| Ok (a : A)
| Throw.
Arguments Ok {A} a.
Arguments Throw {A}.

Definition bind {A B} (m : exn A) (k : A -> exn B) : exn B :=
  match m with
  | Ok a => k a
  | Throw => Throw
  end.

Notation "'let*' x ':=' m 'in' k" := (bind m (fun x => k))
  (at level 10, x pattern, m at level 100, k at level 200).

(** ** Values *)

(** The values the handler meets: what [JSON.parse] builds, [undefined]
    for an absent field, and a member of [Object.prototype] reached by an
    inherited property read ([JNative name] is [Object.prototype[name]]). *)
#[warnings="-register-all"]
Inductive jsval : Type :=
| JUndefined
| JNull
| JBool (b : bool)
| JNum (n : number)
| JStr (s : string)
| JArr (items : list jsval)
| JObj (props : list (string * jsval))
| JNative (name : string).

Module Js.

Definition truthy (v : jsval) : bool :=
  match v with
  | JUndefined | JNull => false
  | JBool b => b
  | JNum n => Num.truthy n
  | JStr s => Str.nonempty s
  | JArr _ | JObj _ | JNative _ => true
  end.

(** [a || b] *)
Definition or (a b : jsval) : jsval := if truthy a then a else b.

(** [a ?? b] *)
Definition nullish (a b : jsval) : jsval :=
  match a with
  | JUndefined | JNull => b
  | _ => a
  end.

Definition has_own (k : string) (props : list (string * jsval)) : bool :=
  existsb (fun p => String.eqb (fst p) k) props.

(** The text of a member of [Object.prototype]: the prototype itself
    for [__proto__], a native function otherwise. *)
Definition native_text (name : string) : string :=
  if String.eqb name "__proto__" then "[object Object]"
  else if String.eqb name "constructor"
       then "function Object() { [native code] }"
       else "function " ++ name ++ "() { [native code] }".

(** [String(v)]. An array joins its items with a comma, [null] items
    being empty; a parsed object whose own [toString] shadows the
    inherited method has no primitive value and throws a TypeError. *)
Fixpoint ToString (v : jsval) : exn string :=
  match v with
  | JUndefined => Ok "undefined"
  | JNull => Ok "null"
  | JBool true => Ok "true"
  | JBool false => Ok "false"
  | JNum n => Ok (Num.to_string n)
  | JStr s => Ok s
  | JArr items =>
      (fix join (l : list jsval) : exn string :=
         match l with
         | [] => Ok ""
         | x :: rest =>
             let* s := match x with
                       | JUndefined | JNull => Ok ""
                       | _ => ToString x
                       end in
             match rest with
             | [] => Ok s
             | _ => let* r := join rest in Ok (s ++ "," ++ r)
             end
         end) items
  | JObj props =>
      if has_own "toString" props then Throw else Ok "[object Object]"
  | JNative name => Ok (native_text name)
  end.

(** [a === b] where [b] is a string. *)
Definition seq_str (a : jsval) (b : string) : bool :=
  match a with
  | JStr s => String.eqb s b
  | _ => false
  end.

End Js.

Section WithNumberParser.

(** [Number(s)] on a string. *)
Variable StringToNumber : string -> number.

(** [Number(v)]: an array or object goes through its string. *)
Definition ToNumber (v : jsval) : exn number :=
  match v with
  | JUndefined => Ok NaN
  | JNull => Ok (Fin 0)
  | JBool true => Ok (Fin 1)
  | JBool false => Ok (Fin 0)
  | JNum n => Ok n
  | JStr s => Ok (StringToNumber s)
  | JArr _ | JObj _ | JNative _ =>
      let* s := Js.ToString v in Ok (StringToNumber s)
  end.

End WithNumberParser.

(** ** Property reads on object literals *)

Module Obj.

(** The members every object literal inherits from [Object.prototype]. *)
Definition prototype_members : list string :=
  [ "constructor"; "__defineGetter__"; "__defineSetter__"; "hasOwnProperty";
    "__lookupGetter__"; "__lookupSetter__"; "isPrototypeOf";
    "propertyIsEnumerable"; "toString"; "valueOf"; "__proto__";
    "toLocaleString" ].

Fixpoint own (props : list (string * jsval)) (k : string) : option jsval :=
  match props with
  | [] => None
  | (k', v) :: rest => if String.eqb k' k then Some v else own rest k
  end.

(** [o[k]] on an object literal [o] with the own properties [props]:
    an own property first, an inherited member next, [undefined] last. *)
Definition get (props : list (string * jsval)) (k : string) : jsval :=
  match own props k with
  | Some v => v
  | None =>
      if existsb (String.eqb k) prototype_members then JNative k
      else JUndefined
  end.

End Obj.

(** ** Ack levels *)

Definition AckMap : list (string * jsval) :=
  [ ("server", JNum (Fin 1)); ("device", JNum (Fin 2));
    ("read", JNum (Fin 3)); ("played", JNum (Fin 4)) ].

Record AckLevel : Type := mkAckLevel { name : string; code : jsval }.

(** [parseAckLevel(s, fallback)] *)
Definition parseAckLevel (s : jsval) (fallback : string) : exn AckLevel :=
  let* k0 := Js.ToString (Js.or s (JStr fallback)) in
  let k := Str.toLowerCase k0 in
  if Js.truthy (Obj.get AckMap k)
  then Ok {| name := k; code := Obj.get AckMap k |}
  else Ok {| name := "server"; code := JNum (Fin 1) |}.

Definition ackNames : list (string * jsval) :=
  [ ("0", JStr "error"); ("1", JStr "server"); ("2", JStr "device");
    ("3", JStr "read"); ("4", JStr "played") ].

(** [ackNames[ack] || String(ack)] *)
Definition ackStr (ack : number) : jsval :=
  Js.or (Obj.get ackNames (Num.to_string ack)) (JStr (Num.to_string ack)).

(** ** Messages of the transport *)

Module Message.

(** A message handle of the transport: [id] is [message.id?._serialized],
    [None] standing for [undefined]. The program never writes to a handle,
    and every event of the transport carries a handle of its own. *)
Record t : Type := mk {
  id : option string;
  _serialized : option string;
  ack : option number
}.

End Message.

Definition of_option (o : option string) : jsval :=
  match o with
  | Some s => JStr s
  | None => JUndefined
  end.

(** [msg?.id?._serialized || msg?._serialized] *)
Definition serializedId (msg : option Message.t) : jsval :=
  match msg with
  | Some m => Js.or (of_option (Message.id m)) (of_option (Message._serialized m))
  | None => JUndefined
  end.

(** [a === b]; two objects are equal when they are the same object,
    which no comparison of the handler depends on. *)
Definition strict_eq (a b : jsval) : bool :=
  match a, b with
  | JUndefined, JUndefined => true
  | JNull, JNull => true
  | JBool x, JBool y => Bool.eqb x y
  | JNum x, JNum y => Num.seq x y
  | JStr x, JStr y => String.eqb x y
  | _, _ => false
  end.

(** ** The ack wait *)

Module Resolution.

(** The value [waitForAck]'s promise is resolved with. *)
Record t : Type := mk { ack : number; timedOut : bool }.

End Resolution.

(** The variables one call of [waitForAck] closes over, and the calls of
    [resolve] it has made so far, oldest first. *)
Record Closure : Type := mkClosure {
  targetId : jsval;
  minAckCode : jsval;
  message : Message.t;
  settled : bool;
  resolved : list Resolution.t
}.

(** The event loop's side of the waits: the [message_ack] listeners of the
    client in the order of their registration, the timers that have not
    fired yet, and the closures, a wait's handle being its index. *)
Record World : Type := mkWorld {
  listeners : list nat;
  timers : list (nat * number);
  closures : list Closure
}.

Definition init : World :=
  {| listeners := []; timers := []; closures := [] |}.

(** The two revisions of [onAck]: [part_002] guards the identifier and
    catches what the comparison throws, [part_000] does neither. *)
Inductive revision : Type := Guarded | Compact.

Fixpoint remove_first (h : nat) (l : list nat) : list nat :=
  match l with
  | [] => []
  | x :: rest => if Nat.eqb x h then rest else x :: remove_first h rest
  end.

(** [emitter.removeListener] removes the most recently added instance. *)
Definition removeListener (h : nat) (l : list nat) : list nat :=
  reverse (remove_first h (reverse l)).

Definition settle (c : Closure) : Closure :=
  {| targetId := targetId c; minAckCode := minAckCode c; message := message c;
     settled := true; resolved := resolved c |}.

Definition record (r : Resolution.t) (c : Closure) : Closure :=
  {| targetId := targetId c; minAckCode := minAckCode c; message := message c;
     settled := settled c; resolved := resolved c ++ [r] |}.

(** [cleanup()] of the wait [h] *)
Definition cleanup (h : nat) (w : World) : World :=
  {| listeners := removeListener h (listeners w);
     timers := timers w;
     closures := alter settle h (closures w) |}.

(** [resolve(r)] of the wait [h] *)
Definition resolve (h : nat) (r : Resolution.t) (w : World) : World :=
  {| listeners := listeners w;
     timers := timers w;
     closures := alter (record r) h (closures w) |}.

(** What the promise of a wait holds: the argument of the first [resolve]. *)
Definition promise (c : Closure) : option Resolution.t := head (resolved c).

Module Loop.

Section Waits.

Variable StringToNumber : string -> number.
Variable rv : revision.

(** [ack >= minAckCode] *)
Definition reaches (ack : number) (minAck : jsval) : exn bool :=
  let* m := ToNumber StringToNumber minAck in Ok (Num.ge ack m).

(** [onAck(msg, ack)] of the wait [h]; [Throw] is an exception that
    leaves the listener. *)
Definition onAck (h : nat) (msg : option Message.t) (ack : number)
    (w : World) : exn World :=
  match closures w !! h with
  | None => Ok w
  | Some c =>
      let id := serializedId msg in
      match rv with
      | Guarded =>
          if negb (Js.truthy id) || negb (strict_eq id (targetId c)) then Ok w
          else match reaches ack (minAckCode c) with
               | Ok true =>
                   Ok (resolve h (Resolution.mk ack false) (cleanup h w))
               | Ok false => Ok w
               | Throw => Ok w
               end
      | Compact =>
          if strict_eq id (targetId c)
          then let* b := reaches ack (minAckCode c) in
               if b then Ok (resolve h (Resolution.mk ack false) (cleanup h w))
               else Ok w
          else Ok w
      end
  end.

(** [client.emit("message_ack", msg, ack)]: the listeners registered when
    the event is emitted are called in order; an exception that leaves a
    listener leaves [emit] too. *)
Fixpoint call_listeners (snapshot : list nat) (msg : option Message.t)
    (ack : number) (w : World) : World :=
  match snapshot with
  | [] => w
  | h :: rest =>
      match onAck h msg ack w with
      | Ok w' => call_listeners rest msg ack w'
      | Throw => w
      end
  end.

Definition emit (msg : option Message.t) (ack : number) (w : World) : World :=
  call_listeners (listeners w) msg ack w.

(** [message.ack ?? 1] *)
Definition lastKnown (m : Message.t) : number :=
  match Message.ack m with
  | Some a => a
  | None => Fin 1
  end.

(** The callback of [setTimeout] of the wait [h]. *)
Definition onTimeout (h : nat) (w : World) : World :=
  match closures w !! h with
  | None => w
  | Some c =>
      if settled c then w
      else resolve h (Resolution.mk (lastKnown (message c)) true) (cleanup h w)
  end.

Definition pending (h : nat) (w : World) : bool :=
  existsb (fun t => Nat.eqb (fst t) h) (timers w).

(** The timer of the wait [h] leaves the timers of the loop. *)
Definition disarm (h : nat) (w : World) : World :=
  {| listeners := listeners w;
     timers := filter (fun t => fst t ≠ h) (timers w);
     closures := closures w |}.

(** The timer of the wait [h] fires: once, and only when armed. *)
Definition fire (h : nat) (w : World) : World :=
  if pending h w then onTimeout h (disarm h w) else w.

(** [waitForAck(message, minAckCode, timeoutMs)]: the handle of the new
    wait and the world with its listener registered and its timer armed. *)
Definition waitForAck (m : Message.t) (minAck : jsval) (timeoutMs : number)
    (w : World) : nat * World :=
  let h := length (closures w) in
  (h, {| listeners := listeners w ++ [h];
         timers := timers w ++ [(h, timeoutMs)];
         closures := closures w ++
           [ {| targetId := serializedId (Some m); minAckCode := minAck;
                message := m; settled := false; resolved := [] |} ] |}).

(** What the event loop runs next. *)
Inductive Event : Type :=
| Call (m : Message.t) (minAck : jsval) (timeoutMs : number)
| Emit (msg : option Message.t) (ack : number)
| Fire (h : nat).

Definition step (w : World) (e : Event) : World :=
  match e with
  | Call m minAck timeoutMs => snd (waitForAck m minAck timeoutMs w)
  | Emit msg ack => emit msg ack w
  | Fire h => fire h w
  end.

Definition run (w : World) (tr : list Event) : World := fold_left step tr w.

End Waits.

End Loop.

Import Loop.

(** ** Configuration and startup *)

Record Config : Type := mkConfig {
  PORT : number;
  BOT_TOKEN : string;
  MONGO_URL : string;
  CLIENT_ID : string;
  ACK_LEVEL_DEFAULT : string;
  ACK_TIMEOUT_MS : number;
  BACKUP_MS : number;
  BACKUP_DIR : string
}.

(** How the top level of the program ends: [process.exit(status)], or it
    goes on to connect the store, initialise the client and listen. *)
Inductive Startup : Type :=
| Exit (status : Z)
| Serve (cfg : Config).

Section Startup.

Variable StringToNumber : string -> number.

(** [process.env[k] || d] *)
Definition env_or (env : gmap string string) (k d : string) : string :=
  match env !! k with
  | Some s => if Str.nonempty s then s else d
  | None => d
  end.

(** [Number(process.env[k] || d)] for a number [d] *)
Definition env_number_or (env : gmap string string) (k : string) (d : Z)
    : number :=
  match env !! k with
  | Some s => if Str.nonempty s then StringToNumber s else Fin d
  | None => Fin d
  end.

(** [process.env[k] ?? d] *)
Definition env_nullish (env : gmap string string) (k d : string) : string :=
  match env !! k with
  | Some s => s
  | None => d
  end.

(** The default of [ACK_TIMEOUT_MS]: 20000 in [part_002], 60000 in
    [part_000]. *)
Definition default_ack_timeout (rv : revision) : Z :=
  match rv with
  | Guarded => 20000
  | Compact => 60000
  end.

Definition load (rv : revision) (env : gmap string string) : Config :=
  {| PORT := env_number_or env "PORT" 3000;
     BOT_TOKEN := env_or env "BOT_TOKEN" "";
     MONGO_URL := env_or env "MONGO_URL" "";
     CLIENT_ID := env_or env "WAPP_CLIENT_ID" "ci-notifier";
     ACK_LEVEL_DEFAULT :=
       Str.toLowerCase (env_or env "ACK_LEVEL_DEFAULT" "device");
     ACK_TIMEOUT_MS :=
       env_number_or env "ACK_TIMEOUT_MS" (default_ack_timeout rv);
     BACKUP_MS := StringToNumber (env_nullish env "WA_BACKUP_MS" "0");
     BACKUP_DIR := env_or env "WA_BACKUP_DIR" "/tmp" |}.

(** The guards on the environment, in the order of the source. *)
Definition startup (rv : revision) (env : gmap string string) : Startup :=
  let cfg := load rv env in
  if negb (Str.nonempty (BOT_TOKEN cfg)) || negb (Str.nonempty (MONGO_URL cfg))
  then Exit 1
  else if Num.isNaN (BACKUP_MS cfg) || Num.lt (BACKUP_MS cfg) (Fin 0)
  then Exit 1
  else if negb (Num.seq (BACKUP_MS cfg) (Fin 0))
          && Num.lt (BACKUP_MS cfg) (Fin 60000)
  then Exit 1
  else Serve cfg.

End Startup.

(** ** The HTTP handler *)

Module Body.

(** [req.body]: a field that is absent, or the body itself being absent,
    reads as [undefined]. *)
Record t : Type := mk {
  bot_token : jsval;
  group : jsval;
  groupId : jsval;
  message : jsval;
  ack : jsval;
  timeoutMs : jsval
}.

End Body.

Module Chat.

(** A conversation of [client.getChats()]; [id] is [c.id._serialized]. *)
Record t : Type := mk {
  isGroup : bool;
  name : option string;
  id : string
}.

End Chat.

(** The transport as the handler sees it: a call returns or throws. *)
Record Transport : Type := mkTransport {
  getChats : exn (list Chat.t);
  getChatById : string -> exn (option Chat.t);
  sendMessage : string -> string -> exn Message.t
}.

Record Sent : Type := mkSent {
  ok : bool;
  groupId : string;
  messageId : jsval;
  ack : jsval;
  timedOut : bool;
  waitedFor : string;
  timeoutMs : number
}.

Inductive Json : Type :=
| ErrorJson (error : string)
| SentJson (s : Sent).

Record Response : Type := mkResponse { status : Z; json : Json }.

(** [res.status(n).json({ error })] *)
Definition fail (n : Z) (error : string) : Response :=
  {| status := n; json := ErrorJson error |}.

(** What the handler has decided when it is about to send. *)
Record Plan : Type := mkPlan {
  chatId : string;
  text : string;
  ackName : string;
  minAck : jsval;
  waitMs : number
}.

Inductive Prepared : Type :=
| Reply (r : Response)
| Send (p : Plan).

(** [String(v || "").trim()] *)
Definition field (v : jsval) : exn string :=
  let* s := Js.ToString (Js.or v (JStr "")) in Ok (Str.trim s).

(** [c.isGroup && String(c.name || "").toLowerCase() === group.toLowerCase()] *)
Definition named (group : string) (c : Chat.t) : bool :=
  Chat.isGroup c
  && String.eqb (Str.toLowerCase (match Chat.name c with
                                  | Some s => s
                                  | None => ""
                                  end))
                (Str.toLowerCase group).

(** The outcome of resolving the chat: its identifier, or the reply that
    ends the request. *)
Inductive Target : Type :=
| Found (chatId : string)
| Refused (r : Response).

(** The [// resolve chat] block of the handler. *)
Definition resolve_chat (tp : Transport) (groupId group : string) : exn Target :=
  if Str.nonempty groupId then Ok (Found groupId)
  else if Str.nonempty group
  then
    let* chats := getChats tp in
    match find (named group) chats with
    | None => Ok (Refused (fail 404 "group not found"))
    | Some g => Ok (Found (Chat.id g))
    end
  else Ok (Refused (fail 400 "groupId or group is required")).

Section Handler.

Variable StringToNumber : string -> number.
Variable rv : revision.
Variable cfg : Config.

(** [requireBodyToken]: [t === BOT_TOKEN] *)
Definition authorized (b : Body.t) : bool :=
  Js.seq_str (Body.bot_token b) (BOT_TOKEN cfg).

(** The handler up to [client.sendMessage]. *)
Definition prepare (isReady : bool) (tp : Transport) (b : Body.t)
    : exn Prepared :=
  if negb isReady then Ok (Reply (fail 503 "whatsapp not ready"))
  else
    let* group := field (Body.group b) in
    let* groupId := field (Body.groupId b) in
    let* text := field (Body.message b) in
    if negb (Str.nonempty text)
    then Ok (Reply (fail 400 "message is required"))
    else
      let* lvl := parseAckLevel (Body.ack b) (ACK_LEVEL_DEFAULT cfg) in
      let* timeoutMs :=
        ToNumber StringToNumber
          (Js.or (Body.timeoutMs b) (JNum (ACK_TIMEOUT_MS cfg))) in
      let* target := resolve_chat tp groupId group in
      match target with
      | Refused r => Ok (Reply r)
      | Found chatId =>
          Ok (Send {| chatId := chatId; text := text; ackName := name lvl;
                      minAck := code lvl; waitMs := timeoutMs |})
      end.

(** [msg?.id?._serialized || null] in [part_002], [?? null] in
    [part_000]. *)
Definition messageId_of (m : Message.t) : jsval :=
  match rv with
  | Guarded => Js.or (of_option (Message.id m)) JNull
  | Compact => Js.nullish (of_option (Message.id m)) JNull
  end.

(** [res.json({ ok: true, ... })] once the wait has resolved with [r]. *)
Definition respond (p : Plan) (m : Message.t) (r : Resolution.t) : Response :=
  {| status := 200;
     json := SentJson
       {| ok := true; groupId := chatId p; messageId := messageId_of m;
          ack := ackStr (Resolution.ack r);
          timedOut := Resolution.timedOut r;
          waitedFor := ackName p; timeoutMs := waitMs p |} |}.

(** Where the handler stands when it suspends or ends: the reply that ends
    the request, or the wait it has started. *)
Inductive Awaiting : Type :=
| Replied (r : Response)
| Waiting (p : Plan) (m : Message.t) (h : nat) (w : World).

(** [POST /send-group] in the world [w] up to its
    [await waitForAck(msg, minAck, timeoutMs)]: [requireBodyToken], the
    handler up to the send, [client.sendMessage], and the call of
    [waitForAck], which leaves the handle [h] of the wait and the world with
    its listener and its timer. *)
Definition awaiting (isReady : bool) (tp : Transport) (b : Body.t)
    (w : World) : Awaiting :=
  if negb (authorized b) then Replied (fail 401 "unauthorized")
  else
    match prepare isReady tp b with
    | Throw => Replied (fail 500 "send failed")
    | Ok (Reply r) => Replied r
    | Ok (Send p) =>
        match sendMessage tp (chatId p) (text p) with
        | Throw => Replied (fail 500 "send failed")
        | Ok m =>
            let (h, w1) :=
              waitForAck m (minAck p) (waitMs p) w in
            Waiting p m h w1
        end
    end.

(** [POST /send-group] in the world [w], followed by the events [tr]:
    the response sent by the end of [tr], [None] while the handler still
    awaits the ack. *)
Definition send_group (isReady : bool) (tp : Transport) (b : Body.t)
    (w : World) (tr : list (Event)) : option Response :=
  match awaiting isReady tp b w with
  | Replied r => Some r
  | Waiting p m h w1 =>
      match closures (run StringToNumber rv w1 tr) !! h with
      | Some c =>
          match promise c with
          | Some r => Some (respond p m r)
          | None => None
          end
      | None => None
      end
  end.

End Handler.

(** ** The earlier revision of [server.js] *)

Module Legacy.

(** The first revision of [server.js] only guards the secret and the
    store; a backup interval that is no number or below a minute leaves
    [backupSyncIntervalMs] undefined. *)
Inductive Startup : Type :=
| Exit (status : Z)
| Serve (backupSyncIntervalMs : option number).

Definition startup (StringToNumber : string -> number)
    (env : gmap string string) : Startup :=
  if negb (Str.nonempty (env_or env "BOT_TOKEN" ""))
     || negb (Str.nonempty (env_or env "MONGO_URL" ""))
  then Exit 1
  else
    match env !! "WA_BACKUP_MS" with
    | Some s =>
        if Str.nonempty s
        then let n := StringToNumber s in
             if Num.isFinite n && Num.ge n (Fin 60000)
             then Serve (Some n)
             else Serve None
        else Serve None
    | None => Serve None
    end.

(** The chat of the request: an explicit identifier is looked up with
    [client.getChatById] and must be a group. The handler has answered 400
    before when it has neither an identifier nor a name. *)
Definition resolve_chat (tp : Transport) (groupIdReq groupName : string)
    : exn Target :=
  if Str.nonempty groupIdReq
  then
    match getChatById tp groupIdReq with
    | Throw => Ok (Refused (fail 404 "groupId not found"))
    | Ok None => Ok (Refused (fail 400 "groupId is not a group"))
    | Ok (Some chat) =>
        if Chat.isGroup chat then Ok (Found (Chat.id chat))
        else Ok (Refused (fail 400 "groupId is not a group"))
    end
  else
    let* chats := getChats tp in
    match find (named groupName) chats with
    | None => Ok (Refused (fail 404 "group not found"))
    | Some chat => Ok (Found (Chat.id chat))
    end.

End Legacy.

(** ** Concrete inputs *)

Module Sample.

(** [Number] on the strings of the samples: a plain decimal integer,
    the empty string being 0 and anything else NaN. *)
Definition decimal (s : string) : number :=
  match Str.trim s with
  | EmptyString => Fin 0
  | t =>
      match NilZero.int_of_string t with
      | Some i => Fin (Z.of_int i)
      | None => NaN
      end
  end.

Definition env : gmap string string :=
  <["BOT_TOKEN" := "s3cret"]> (<["MONGO_URL" := "mongodb://db/wa"]> ∅).

Definition cfg : Config := load decimal Guarded env.

Definition chats : list Chat.t :=
  [ Chat.mk false (Some "Release Notices") "4915@c.us";
    Chat.mk true (Some "release notices") "1203A@g.us";
    Chat.mk true (Some "RELEASE NOTICES") "1203B@g.us" ].

Definition sent : Message.t :=
  Message.mk (Some "true_1203A@g.us_3EB0") None (Some (Fin 0)).

Definition other : Message.t :=
  Message.mk (Some "true_1203B@g.us_77AA") None (Some (Fin 0)).

Definition transport : Transport :=
  {| getChats := Ok chats;
     getChatById := fun _ => Throw;
     sendMessage := fun _ _ => Ok sent |}.

(** A transport that finds the chats of the listing by their identifiers,
    and throws on any other identifier. *)
Definition directory : Transport :=
  {| getChats := Ok chats;
     getChatById := fun i =>
       match find (fun c => String.eqb (Chat.id c) i) chats with
       | Some c => Ok (Some c)
       | None => Throw
       end;
     sendMessage := fun _ _ => Ok sent |}.

(** [{ "bot-token": "s3cret", message, group, groupId, ack, timeoutMs }] *)
Definition body (message group groupId ack timeoutMs : jsval) : Body.t :=
  Body.mk (JStr "s3cret") group groupId message ack timeoutMs.

End Sample.

(** ** The client's lifecycle and the health endpoint *)

(** The events of the client the program listens to. *)
Inductive Lifecycle : Type :=
| Qr
| RemoteSessionSaved
| Authenticated
| Ready
| Disconnected
| AuthFailure.

(** What the listener of a lifecycle event leaves in [isReady]. *)
Definition lifecycle (isReady : bool) (e : Lifecycle) : bool :=
  match e with
  | Ready => true
  | Disconnected | AuthFailure => false
  | Qr | RemoteSessionSaved | Authenticated => isReady
  end.

(** [isReady] after the events [evs], from [let isReady = false]. *)
Definition readiness (evs : list Lifecycle) : bool :=
  fold_left lifecycle evs false.

(** [backupSyncIntervalMs: BACKUP_MS === 0 ? 600000 : BACKUP_MS] *)
Definition backupSyncIntervalMs (cfg : Config) : number :=
  if Num.seq (BACKUP_MS cfg) (Fin 0) then Fin 600000 else BACKUP_MS cfg.

(** [if (BACKUP_MS >= 60000) { try { fs.mkdirSync(BACKUP_DIR, ...); ...
    setInterval(..., BACKUP_MS).unref(); } catch (e) { ... } }]: whether
    the periodic ZIP backup is scheduled, given what [fs.mkdirSync] does.
    When it throws, the [catch] logs the error and nothing is scheduled. *)
Definition backup_scheduled (cfg : Config) (mkdirSync : exn unit) : bool :=
  if Num.ge (BACKUP_MS cfg) (Fin 60000)
  then match mkdirSync with
       | Ok _ => true
       | Throw => false
       end
  else false.

Module Health.

(** The [backup] field of [/healthz]. *)
Inductive Backup : Type :=
| Every (everyMs : number) (dir : string)
| Disabled.

(** The body of [GET /healthz]. *)
Record t : Type := mk {
  ok : bool;
  ready : bool;
  clientId : string;
  backup : Backup;
  ackDefault : string;
  ackTimeoutMs : number
}.

End Health.

(** [GET /healthz] *)
Definition healthz (cfg : Config) (isReady : bool) : Health.t :=
  {| Health.ok := true;
     Health.ready := isReady;
     Health.clientId := CLIENT_ID cfg;
     Health.backup :=
       if Num.ge (BACKUP_MS cfg) (Fin 60000)
       then Health.Every (BACKUP_MS cfg) (BACKUP_DIR cfg)
       else Health.Disabled;
     Health.ackDefault := ACK_LEVEL_DEFAULT cfg;
     Health.ackTimeoutMs := ACK_TIMEOUT_MS cfg |}.

(** ** The ack wait of the earlier [server.js] *)

Module LegacyWait.

(** The promise the first revision of [server.js] awaits after the send:
    whether its [message_ack] listener is registered, whether its timer
    of ten seconds is armed, and the arguments of its calls of [resolve],
    oldest first. *)
Record State : Type := mk {
  listening : bool;
  armed : bool;
  calls : list bool
}.

(** The promise has been created: the timer is armed and the listener
    registered. *)
Definition start : State :=
  {| listening := true; armed := true; calls := [] |}.

(** An event of the transport on a message with the identifier [id]
    ([msg.id._serialized]), or the timer of the wait. *)
Inductive Event : Type :=
| Ack (id : string) (ack : number)
| Timer.

(** [msg.id._serialized === sent.id._serialized && ack >= 1] *)
Definition matches (sentId : string) (id : string) (ack : number) : bool :=
  String.eqb id sentId && Num.ge ack (Fin 1).

(** [onAck(msg, ack)], called while the listener is registered: on a
    match it clears the timer, removes itself and resolves with [true]. *)
Definition onAck (sentId : string) (id : string) (ack : number) (s : State)
    : State :=
  if listening s
  then if matches sentId id ack
       then {| listening := false; armed := false;
               calls := calls s ++ [true] |}
       else s
  else s.

(** The callback of the timer: [resolve(false)], and nothing else. *)
Definition onTimer (s : State) : State :=
  if armed s
  then {| listening := listening s; armed := false;
          calls := calls s ++ [false] |}
  else s.

Definition step (sentId : string) (s : State) (e : Event) : State :=
  match e with
  | Ack id ack => onAck sentId id ack s
  | Timer => onTimer s
  end.

Definition run (sentId : string) (tr : list Event) : State :=
  fold_left (step sentId) tr start.

(** [acked]: what the promise holds, the argument of the first
    [resolve]. *)
Definition acked (s : State) : option bool := head (calls s).

(** [ack: acked ? "server" : "pending"] *)
Definition ackField (a : bool) : string :=
  if a then "server" else "pending".

(** The event is an ack on which [onAck] resolves. *)
Definition hit (sentId : string) (e : Event) : bool :=
  match e with
  | Ack id ack => matches sentId id ack
  | Timer => false
  end.

End LegacyWait.

(** ** Properties the statements below are written with *)

(** An environment variable is missing: unset, or set to nothing. *)
Definition missing (env : gmap string string) (k : string) : Prop :=
  env !! k = None \/ env !! k = Some "".

(** A backup interval is invalid: not a number, negative, or not zero
    and below the minimum of one minute. *)
Definition invalid_interval (n : number) : Prop :=
  n = NaN \/ n = Inf true \/
  exists z, n = Fin z /\ (z < 0 \/ (z <> 0 /\ z < 60000))%Z.

Module Trace.

(** The worlds the event loop can be in: a listener is registered once,
    and for a wait that has not settled; a wait that has not settled has
    resolved nothing, has its listener registered and its timer armed; a wait
    that has settled has resolved once. *)
Definition consistent (w : World) : Prop :=
  NoDup (listeners w) /\
  (forall h, h ∈ listeners w ->
     exists c, closures w !! h = Some c /\ settled c = false) /\
  (forall h c, closures w !! h = Some c ->
     if settled c then length (resolved c) = 1
     else resolved c = [] /\ h ∈ listeners w /\ pending h w = true).

(** The event is one on which [onAck] of [part_002] resolves a wait for
    [target] at the level [minAck]. *)
Definition qualifies (StringToNumber : string -> number)
    (target minAck : jsval) (e : Event) : bool :=
  match e with
  | Emit msg ack =>
      Js.truthy (serializedId msg) && strict_eq (serializedId msg) target
      && match reaches StringToNumber ack minAck with
         | Ok true => true
         | _ => false
         end
  | _ => false
  end.

(** The resolution a wait for [target] at the level [minAck] reaches along
    a trace: the first of a qualifying event and of its timer [h] wins,
    the timer reporting the level [known]; [None] while neither has come. *)
Fixpoint outcome (StringToNumber : string -> number) (h : nat)
    (target minAck : jsval) (known : number) (tr : list Event)
    : option Resolution.t :=
  match tr with
  | [] => None
  | e :: rest =>
      match e with
      | Emit msg ack =>
          if qualifies StringToNumber target minAck e
          then Some (Resolution.mk ack false)
          else outcome StringToNumber h target minAck known rest
      | Fire j =>
          if Nat.eqb j h then Some (Resolution.mk known true)
          else outcome StringToNumber h target minAck known rest
      | Call _ _ _ => outcome StringToNumber h target minAck known rest
      end
  end.

(** Two states of the closure of one wait: what the call closed over is
    the same. *)
Definition same_wait (c c' : Closure) : Prop :=
  targetId c' = targetId c /\ minAckCode c' = minAckCode c /\
  message c' = message c.

End Trace.

Import Trace.

Module Facts.

(** A string of white space only. *)
Fixpoint blank (s : string) : bool :=
  match s with
  | EmptyString => true
  | String c r => Str.is_space c && blank r
  end.

(** A message the transport has given a non-empty identifier. *)
Definition identified (m : Message.t) : Prop :=
  exists i, serializedId (Some m) = JStr i /\ i <> "".

(** A minimum level whose conversion to a number does not throw. *)
Definition convertible (StringToNumber : string -> number) (v : jsval) : Prop :=
  exists n, ToNumber StringToNumber v = Ok n.

(** The calls of [waitForAck] of a trace are for identified messages and
    convertible levels. *)
Definition plain (StringToNumber : string -> number) (tr : list Event) : Prop :=
  forall m minAck t, Call m minAck t ∈ tr ->
    identified m /\ convertible StringToNumber minAck.

(** What a wait has resolved with is justified: a timeout reports the last
    known level of the message, and an ack a level that reaches the
    minimum. *)
Definition justified (StringToNumber : string -> number) (c : Closure)
    (r : Resolution.t) : Prop :=
  if Resolution.timedOut r
  then Resolution.ack r = lastKnown (message c)
  else reaches StringToNumber (Resolution.ack r) (minAckCode c) = Ok true.

(** Every wait of the world has resolved with justified resolutions only. *)
Definition all_justified (StringToNumber : string -> number) (w : World)
    : Prop :=
  forall h c r, closures w !! h = Some c -> r ∈ resolved c ->
    justified StringToNumber c r.

(** Every wait of the world is for an identifier that is a non-empty
    string and a level that converts. *)
Definition tidy (StringToNumber : string -> number) (w : World) : Prop :=
  forall h c, closures w !! h = Some c ->
    (exists i, targetId c = JStr i /\ i <> "") /\
    convertible StringToNumber (minAckCode c).

End Facts.

Import Facts.

(** * Properties *)

(** ** Ack levels *)

(** A level name is parsed to itself with its code, in any case of its
    letters. *)
Lemma parseAckLevel_level (s fallback : string) (c : Z) :
  In (Str.toLowerCase s, c)
     [("server", 1); ("device", 2); ("read", 3); ("played", 4)]%Z ->
  parseAckLevel (JStr s) fallback
  = Ok {| name := Str.toLowerCase s; code := JNum (Fin c) |}.
Proof.
  intros Hin.
  assert (Ht : Js.truthy (JStr s) = true).
  { destruct s; [cbn in Hin; intuition congruence | reflexivity]. }
  unfold parseAckLevel, Js.or. rewrite Ht. cbn [Js.ToString bind].
  remember (Str.toLowerCase s) as k eqn:Hk. clear Hk Ht.
  cbn in Hin.
  destruct Hin as [H | [H | [H | [H | []]]]];
    injection H as H <-; rewrite <- H; reflexivity.
Qed.

(** A string that names neither a level nor a member of
    [Object.prototype] is parsed to the lowest level. *)
Lemma parseAckLevel_other (s fallback : string) :
  s <> "" ->
  Obj.get AckMap (Str.toLowerCase s) = JUndefined ->
  parseAckLevel (JStr s) fallback = Ok {| name := "server"; code := JNum (Fin 1) |}.
Proof.
  intros Hs Hget. unfold parseAckLevel, Js.or. cbn [Js.truthy].
  destruct s as [|a s]; [congruence|]. cbn [Str.nonempty Js.ToString bind].
  rewrite Hget. reflexivity.
Qed.

(** C5. [parseAckLevel] does not fall back to the lowest level on the
    string "constructor": the read of [AckMap] finds the member inherited
    from [Object.prototype], which is truthy, and the result carries the
    string as its name and the inherited function as its code. *)
Theorem parseAckLevel_constructor :
  parseAckLevel (JStr "constructor") "device"
  = Ok {| name := "constructor"; code := JNative "constructor" |}.
Proof. reflexivity. Qed.

(** ** Startup *)

Lemma nonempty_false (s : string) : Str.nonempty s = false <-> s = "".
Proof. destruct s; cbn; split; congruence. Qed.

Lemma nonempty_true (s : string) : s <> "" -> Str.nonempty s = true.
Proof. destruct s; cbn; congruence. Qed.

Lemma env_or_empty (env : gmap string string) (k : string) :
  env_or env k "" = "" <-> missing env k.
Proof.
  unfold env_or, missing. destruct (env !! k) as [[|a s]|]; cbn.
  - split; auto.
  - split; [discriminate | intros [H|H]; discriminate].
  - split; auto.
Qed.

Lemma invalid_interval_guards (n : number) :
  invalid_interval n <->
  Num.isNaN n || Num.lt n (Fin 0)
  || negb (Num.seq n (Fin 0)) && Num.lt n (Fin 60000) = true.
Proof.
  unfold invalid_interval. destruct n as [|[]|z]; cbn.
  - split; auto.
  - split; auto.
  - split; [intros [H|[H|(z & H & _)]]; discriminate | discriminate].
  - split.
    + intros [H|[H|(z' & H & Hz)]]; try discriminate.
      injection H as <-.
      destruct (Z.ltb_spec z 0), (Z.eqb_spec z 0), (Z.ltb_spec z 60000);
        cbn; auto; lia.
    + intros H. right. right. exists z. split; [reflexivity|].
      destruct (Z.ltb_spec z 0), (Z.eqb_spec z 0), (Z.ltb_spec z 60000);
        cbn in H; try discriminate; lia.
Qed.

(** The earlier [server.js] exits with status 1 only when the secret or
    the store target is missing; it goes on to serve otherwise, with a
    backup interval only when that is a finite number of at least a
    minute. *)
Remark legacy_startup_guards (StringToNumber : string -> number)
    (env : gmap string string) :
  let unset := missing env "BOT_TOKEN" \/ missing env "MONGO_URL" in
  (unset -> Legacy.startup StringToNumber env = Legacy.Exit 1) /\
  (~ unset ->
   exists backup,
     Legacy.startup StringToNumber env = Legacy.Serve backup /\
     forall n, backup = Some n ->
       Num.isFinite n = true /\ Num.ge n (Fin 60000) = true).
Proof.
  cbn zeta. unfold Legacy.startup.
  rewrite <- !env_or_empty, <- !nonempty_false.
  destruct (Str.nonempty (env_or env "BOT_TOKEN" "")),
           (Str.nonempty (env_or env "MONGO_URL" "")); cbn [negb orb];
    try (split; [reflexivity | intros H; exfalso; apply H; auto]).
  split; [intros [H|H]; discriminate|]. intros _.
  destruct (env !! "WA_BACKUP_MS") as [s|];
    [|exists None; split; [reflexivity | discriminate]].
  destruct (Str.nonempty s);
    [|exists None; split; [reflexivity | discriminate]].
  destruct (Num.isFinite _ && Num.ge _ _) eqn:E.
  - eexists. split; [reflexivity|]. intros n [= <-].
    now apply andb_prop in E.
  - exists None. split; [reflexivity | discriminate].
Qed.

(** C9, by revision. In [part_002] and [part_000] startup exits with
    status 1 when the secret or the store target is missing or the backup
    interval is invalid, and goes on to serve with the loaded configuration
    otherwise. In the earlier [server.js] startup exits with status 1 only
    when the secret or the store target is missing: whatever the interval
    is, startup goes on to serve, and hands a backup interval to the session
    store only when it is a finite number of at least a minute. *)
Theorem startup_guards (StringToNumber : string -> number) (rv : revision)
    (env : gmap string string) :
  let unset := missing env "BOT_TOKEN" \/ missing env "MONGO_URL" in
  let interval := StringToNumber (env_nullish env "WA_BACKUP_MS" "0") in
  ((unset \/ invalid_interval interval ->
    startup StringToNumber rv env = Exit 1) /\
   (~ (unset \/ invalid_interval interval) ->
    startup StringToNumber rv env = Serve (load StringToNumber rv env))) /\
  ((unset -> Legacy.startup StringToNumber env = Legacy.Exit 1) /\
   (~ unset ->
    exists backup,
      Legacy.startup StringToNumber env = Legacy.Serve backup /\
      forall n, backup = Some n ->
        Num.isFinite n = true /\ Num.ge n (Fin 60000) = true)).
Proof.
  cbn zeta. split; [|exact (legacy_startup_guards StringToNumber env)].
  unfold startup. cbn [BOT_TOKEN MONGO_URL BACKUP_MS load].
  rewrite <- !env_or_empty, <- !nonempty_false, invalid_interval_guards.
  set (n := StringToNumber _).
  destruct (Str.nonempty (env_or env "BOT_TOKEN" "")),
           (Str.nonempty (env_or env "MONGO_URL" "")); cbn [negb orb];
    try (split; [reflexivity | intros H; exfalso; apply H; auto]).
  destruct (Num.isNaN n), (Num.lt n (Fin 0)),
    (negb (Num.seq n (Fin 0))), (Num.lt n (Fin 60000)); cbn;
    (split; [ intros [[H|H]|H]; (discriminate || reflexivity)
            | intros H; try reflexivity; exfalso; apply H; auto ]).
Qed.

(** ** The handler up to the send *)

Lemma bind_Ok {A B} (m : exn A) (k : A -> exn B) (b : B) :
  bind m k = Ok b -> exists a, m = Ok a /\ k a = Ok b.
Proof. destruct m as [a|]; cbn; [eauto | discriminate]. Qed.

(** What a request that reaches the send has gone through. *)
Lemma prepare_Send (StringToNumber : string -> number) (cfg : Config)
    (isReady : bool) (tp : Transport) (b : Body.t) (p : Plan) :
  prepare StringToNumber cfg isReady tp b = Ok (Send p) ->
  isReady = true /\
  exists group groupId lvl,
    field (Body.group b) = Ok group /\
    field (Body.groupId b) = Ok groupId /\
    field (Body.message b) = Ok (text p) /\
    text p <> "" /\
    parseAckLevel (Body.ack b) (ACK_LEVEL_DEFAULT cfg) = Ok lvl /\
    ackName p = name lvl /\ minAck p = code lvl /\
    ToNumber StringToNumber
      (Js.or (Body.timeoutMs b) (JNum (ACK_TIMEOUT_MS cfg))) = Ok (waitMs p) /\
    resolve_chat tp groupId group = Ok (Found (chatId p)).
Proof.
  unfold prepare. destruct isReady; cbn [negb]; [|discriminate].
  intros H. split; [reflexivity|].
  apply bind_Ok in H as (group & Hg & H).
  apply bind_Ok in H as (groupId & Hgid & H).
  apply bind_Ok in H as (t & Ht & H).
  destruct (Str.nonempty t) eqn:Hne; cbn [negb] in H; [|discriminate].
  apply bind_Ok in H as (lvl & Hlvl & H).
  apply bind_Ok in H as (n & Hn & H).
  apply bind_Ok in H as (target & Htarget & H).
  destruct target as [chatId|r]; [|discriminate].
  injection H as <-. cbn.
  exists group, groupId, lvl. repeat split; auto.
  intros ->. discriminate.
Qed.

(** The handler written out in one piece. *)
Lemma send_group_eq (StringToNumber : string -> number) (rv : revision)
    (cfg : Config) (isReady : bool) (tp : Transport) (b : Body.t)
    (w : World) (tr : list Event) :
  send_group StringToNumber rv cfg isReady tp b w tr
  = if negb (authorized cfg b) then Some (fail 401 "unauthorized")
    else
      match prepare StringToNumber cfg isReady tp b with
      | Throw => Some (fail 500 "send failed")
      | Ok (Reply r) => Some r
      | Ok (Send p) =>
          match sendMessage tp (chatId p) (text p) with
          | Throw => Some (fail 500 "send failed")
          | Ok m =>
              let (h, w1) := waitForAck m (minAck p) (waitMs p) w in
              match closures (run StringToNumber rv w1 tr) !! h with
              | Some c =>
                  match promise c with
                  | Some r => Some (respond rv p m r)
                  | None => None
                  end
              | None => None
              end
          end
      end.
Proof.
  unfold send_group, awaiting.
  destruct (authorized cfg b); cbn [negb]; [|reflexivity].
  destruct (prepare StringToNumber cfg isReady tp b) as [[r|p]|];
    [reflexivity | | reflexivity].
  destruct (sendMessage tp (chatId p) (text p)) as [m|]; reflexivity.
Qed.

(** A request starts a wait exactly when it is authorized, has passed the
    handler up to the send, and its message has been sent. *)
Lemma awaiting_Waiting (StringToNumber : string -> number) (cfg : Config)
    (isReady : bool) (tp : Transport) (b : Body.t) (w : World)
    (p : Plan) (m : Message.t) (h : nat) (w1 : World) :
  awaiting StringToNumber cfg isReady tp b w = Waiting p m h w1 <->
  authorized cfg b = true /\
  prepare StringToNumber cfg isReady tp b = Ok (Send p) /\
  sendMessage tp (chatId p) (text p) = Ok m /\
  waitForAck m (minAck p) (waitMs p) w = (h, w1).
Proof.
  unfold awaiting. split.
  - destruct (authorized cfg b); cbn [negb]; [|discriminate].
    destruct (prepare StringToNumber cfg isReady tp b) as [[r|p']|];
      try discriminate.
    destruct (sendMessage tp (chatId p') (text p')) as [m'|] eqn:Hs;
      [|discriminate].
    destruct (waitForAck m' (minAck p') (waitMs p') w) as [h' w'] eqn:Hw.
    intros [= -> -> -> ->]. auto.
  - intros (-> & -> & -> & ->). reflexivity.
Qed.

(** C10. Every request that starts its wait arms exactly one timer, the
    timer of that wait. Its delay is the configured default when the
    request's [timeoutMs] is absent, zero or otherwise falsy, and the
    request's own number when that is truthy; the reply reports the same
    delay. And an authorized request whose fields convert, whose chat is
    found and whose message is sent does start its wait, with that delay. *)
Theorem timeoutMs_default (StringToNumber : string -> number) (cfg : Config)
    (isReady : bool) (tp : Transport) (b : Body.t) (w : World) :
  (forall p m h w1,
     awaiting StringToNumber cfg isReady tp b w = Waiting p m h w1 ->
     (Js.truthy (Body.timeoutMs b) = false ->
      timers w1 = (timers w ++ [(h, ACK_TIMEOUT_MS cfg)])%list) /\
     (forall n, Body.timeoutMs b = JNum n -> Num.truthy n = true ->
      timers w1 = (timers w ++ [(h, n)])%list) /\
     timers w1 = (timers w ++ [(h, waitMs p)])%list /\
     h = length (closures w) /\
     (forall rv tr r,
        send_group StringToNumber rv cfg isReady tp b w tr = Some r ->
        exists s, json r = SentJson s /\ timeoutMs s = waitMs p)) /\
  (forall group groupId t lvl chat m d,
     authorized cfg b = true -> isReady = true ->
     field (Body.group b) = Ok group ->
     field (Body.groupId b) = Ok groupId ->
     field (Body.message b) = Ok t -> t <> "" ->
     parseAckLevel (Body.ack b) (ACK_LEVEL_DEFAULT cfg) = Ok lvl ->
     resolve_chat tp groupId group = Ok (Found chat) ->
     sendMessage tp chat t = Ok m ->
     Js.truthy (Body.timeoutMs b) = false /\ d = ACK_TIMEOUT_MS cfg
     \/ Body.timeoutMs b = JNum d /\ Num.truthy d = true ->
     exists w1,
       awaiting StringToNumber cfg isReady tp b w
       = Waiting {| chatId := chat; text := t; ackName := name lvl;
                    minAck := code lvl; waitMs := d |}
           m (length (closures w)) w1 /\
       timers w1 = (timers w ++ [(length (closures w), d)])%list).
Proof.
  split.
  - intros p m h w1 Ha. pose proof Ha as Hw.
    apply awaiting_Waiting in Hw as (Hauth & Hp & Hs & Hw).
    apply prepare_Send in Hp as (_ & g & gid & lvl & H).
    destruct H as (_ & _ & _ & _ & _ & _ & _ & Hn & _).
    unfold waitForAck in Hw. injection Hw as <- <-. cbn [timers].
    unfold Js.or in Hn. split; [|split; [|split; [|split]]].
    + intros Hf. rewrite Hf in Hn. cbn in Hn. congruence.
    + intros n Hb Ht. rewrite Hb in Hn. cbn [Js.truthy] in Hn.
      rewrite Ht in Hn. cbn in Hn. congruence.
    + reflexivity.
    + reflexivity.
    + intros rv tr r. unfold send_group. rewrite Ha.
      destruct (closures _ !! _) as [c|]; [|discriminate].
      destruct (promise c) as [res|]; [|discriminate].
      intros [= <-]. cbn. eauto.
  - intros group groupId t lvl chat m d Hauth -> Hg Hgid Ht Hne Hlvl Hres
      Hsend Hd.
    assert (Hn : ToNumber StringToNumber
                   (Js.or (Body.timeoutMs b) (JNum (ACK_TIMEOUT_MS cfg)))
                 = Ok d).
    { unfold Js.or. destruct Hd as [[Hf ->]|[Hb Htr]].
      - rewrite Hf. reflexivity.
      - rewrite Hb. cbn [Js.truthy]. rewrite Htr. reflexivity. }
    eexists. unfold awaiting, prepare. rewrite Hauth. cbn [negb].
    rewrite Hg, Hgid, Ht. cbn [bind]. rewrite (nonempty_true _ Hne).
    cbn [negb]. rewrite Hlvl, Hn. cbn [bind]. rewrite Hres.
    cbn [bind chatId text]. rewrite Hsend. cbn.
    split; reflexivity.
Qed.

(** ** Resolving the chat *)

Lemma find_none_Forall {A} (f : A -> bool) (l : list A) :
  Forall (fun x => f x = false) l -> find f l = None.
Proof.
  induction 1 as [|x l Hx _ IH]; cbn; [reflexivity|]. rewrite Hx. exact IH.
Qed.

Lemma find_first {A} (f : A -> bool) (before after : list A) (x : A) :
  Forall (fun y => f y = false) before -> f x = true ->
  find f (before ++ x :: after)%list = Some x.
Proof.
  induction 1 as [|y l Hy _ IH]; cbn; intros Hx.
  - rewrite Hx. reflexivity.
  - rewrite Hy. auto.
Qed.

(** Without an explicit identifier the name is searched in the listing. *)
Lemma resolve_chat_name (tp : Transport) (group : string)
    (chats : list Chat.t) :
  group <> "" -> getChats tp = Ok chats ->
  resolve_chat tp "" group
  = match find (named group) chats with
    | None => Ok (Refused (fail 404 "group not found"))
    | Some g => Ok (Found (Chat.id g))
    end.
Proof.
  intros Hne Hchats. unfold resolve_chat. cbn [Str.nonempty].
  rewrite (nonempty_true _ Hne), Hchats. reflexivity.
Qed.

(** The earlier [server.js] looks an explicit identifier up in the
    transport, without reading the conversation list, and searches a name in
    the listing in the same way. *)
Remark legacy_resolve_chat (tp : Transport) :
  (forall groupIdReq groupName listing,
     groupIdReq <> "" ->
     Legacy.resolve_chat tp groupIdReq groupName
     = Legacy.resolve_chat
         {| getChats := listing; getChatById := getChatById tp;
            sendMessage := sendMessage tp |} groupIdReq groupName) /\
  (forall groupName chats,
     getChats tp = Ok chats ->
     Legacy.resolve_chat tp "" groupName
     = match find (named groupName) chats with
       | None => Ok (Refused (fail 404 "group not found"))
       | Some g => Ok (Found (Chat.id g))
       end).
Proof.
  split.
  - intros groupIdReq groupName listing Hne. unfold Legacy.resolve_chat.
    now rewrite (nonempty_true _ Hne).
  - intros groupName chats Hchats. unfold Legacy.resolve_chat.
    cbn [Str.nonempty]. now rewrite Hchats.
Qed.

(** C6, by revision. In [part_002] and [part_000] a group identifier that
    is not empty after trimming is the target as it is, whatever the group
    name and the conversation list are: the handler calls
    [client.sendMessage] on it. The name is resolved only without an
    identifier, to the first group of the listing whose name equals it up to
    the case of the letters, and to the 404 reply when there is none. In the
    earlier [server.js] an explicit identifier is looked up with
    [client.getChatById], without reading the conversation list: the request
    is answered 404 when the lookup throws and 400 when the chat is not a
    group, and the target is the identifier of the chat found otherwise; a
    name is searched in the listing in the same way. *)
Theorem groupId_before_name (StringToNumber : string -> number) (cfg : Config)
    (tp : Transport) (b : Body.t) :
  (forall groupId group,
     groupId <> "" -> resolve_chat tp groupId group = Ok (Found groupId)) /\
  (forall group groupId t lvl n,
     field (Body.group b) = Ok group ->
     field (Body.groupId b) = Ok groupId -> groupId <> "" ->
     field (Body.message b) = Ok t -> t <> "" ->
     parseAckLevel (Body.ack b) (ACK_LEVEL_DEFAULT cfg) = Ok lvl ->
     ToNumber StringToNumber
       (Js.or (Body.timeoutMs b) (JNum (ACK_TIMEOUT_MS cfg))) = Ok n ->
     let p := {| chatId := groupId; text := t; ackName := name lvl;
                 minAck := code lvl; waitMs := n |} in
     prepare StringToNumber cfg true tp b = Ok (Send p) /\
     (authorized cfg b = true ->
      forall w,
        awaiting StringToNumber cfg true tp b w
        = match sendMessage tp groupId t with
          | Throw => Replied (fail 500 "send failed")
          | Ok m =>
              Waiting p m (length (closures w))
                (snd (waitForAck m (code lvl) n w))
          end)) /\
  (forall p groupId,
     prepare StringToNumber cfg true tp b = Ok (Send p) ->
     field (Body.groupId b) = Ok groupId -> groupId <> "" ->
     chatId p = groupId) /\
  (forall group chats,
     group <> "" -> getChats tp = Ok chats ->
     (Forall (fun c => named group c = false) chats ->
      resolve_chat tp "" group = Ok (Refused (fail 404 "group not found"))) /\
     (forall before g after,
        chats = (before ++ g :: after)%list ->
        Forall (fun c => named group c = false) before ->
        named group g = true ->
        resolve_chat tp "" group = Ok (Found (Chat.id g)))) /\
  (forall group c,
     named group c = true <->
     Chat.isGroup c = true /\
     Str.toLowerCase (default "" (Chat.name c)) = Str.toLowerCase group) /\
  (forall rv w tr group t lvl n chats,
     authorized cfg b = true ->
     field (Body.group b) = Ok group -> field (Body.groupId b) = Ok "" ->
     field (Body.message b) = Ok t -> t <> "" ->
     parseAckLevel (Body.ack b) (ACK_LEVEL_DEFAULT cfg) = Ok lvl ->
     ToNumber StringToNumber
       (Js.or (Body.timeoutMs b) (JNum (ACK_TIMEOUT_MS cfg))) = Ok n ->
     group <> "" -> getChats tp = Ok chats ->
     Forall (fun c => named group c = false) chats ->
     send_group StringToNumber rv cfg true tp b w tr
     = Some (fail 404 "group not found")) /\
  (forall groupIdReq groupName,
     groupIdReq <> "" ->
     (getChatById tp groupIdReq = Throw ->
      Legacy.resolve_chat tp groupIdReq groupName
      = Ok (Refused (fail 404 "groupId not found"))) /\
     (forall chat,
        getChatById tp groupIdReq = Ok chat ->
        (forall c, chat = Some c -> Chat.isGroup c = false) ->
        Legacy.resolve_chat tp groupIdReq groupName
        = Ok (Refused (fail 400 "groupId is not a group"))) /\
     (forall c,
        getChatById tp groupIdReq = Ok (Some c) -> Chat.isGroup c = true ->
        Legacy.resolve_chat tp groupIdReq groupName = Ok (Found (Chat.id c))) /\
     (forall listing,
        Legacy.resolve_chat tp groupIdReq groupName
        = Legacy.resolve_chat
            {| getChats := listing; getChatById := getChatById tp;
               sendMessage := sendMessage tp |} groupIdReq groupName)) /\
  (forall groupName chats,
     groupName <> "" -> getChats tp = Ok chats ->
     Legacy.resolve_chat tp "" groupName
     = match find (named groupName) chats with
       | None => Ok (Refused (fail 404 "group not found"))
       | Some g => Ok (Found (Chat.id g))
       end).
Proof.
  split; [|split; [|split; [|split; [|split; [|split; [|split]]]]]].
  - intros groupId group Hne. unfold resolve_chat.
    rewrite (nonempty_true _ Hne). reflexivity.
  - intros group groupId t lvl n Hg Hgid Hne Ht Htne Hlvl Hn. cbn zeta.
    assert (Hp : prepare StringToNumber cfg true tp b
                 = Ok (Send {| chatId := groupId; text := t;
                               ackName := name lvl; minAck := code lvl;
                               waitMs := n |})).
    { unfold prepare. cbn [negb]. rewrite Hg, Hgid, Ht. cbn [bind].
      rewrite (nonempty_true _ Htne). cbn [negb]. rewrite Hlvl, Hn.
      cbn [bind]. unfold resolve_chat. rewrite (nonempty_true _ Hne).
      reflexivity. }
    split; [exact Hp|]. intros Hauth w. unfold awaiting.
    rewrite Hauth, Hp. cbn [negb chatId text].
    destruct (sendMessage tp groupId t); reflexivity.
  - intros p groupId Hp Hf Hne.
    apply prepare_Send in Hp as (_ & g & gid & lvl & H).
    destruct H as (_ & Hgid & _ & _ & _ & _ & _ & _ & Hres).
    rewrite Hf in Hgid. injection Hgid as <-.
    unfold resolve_chat in Hres. rewrite (nonempty_true _ Hne) in Hres.
    congruence.
  - intros group chats Hne Hchats.
    rewrite (resolve_chat_name _ _ _ Hne Hchats). split.
    + intros Hall. rewrite (find_none_Forall _ _ Hall). reflexivity.
    + intros before g after -> Hbefore Hg.
      rewrite (find_first _ _ _ _ Hbefore Hg). reflexivity.
  - intros group c. unfold named. split.
    + intros Hn. apply andb_prop in Hn as [Hg Hn].
      apply String.eqb_eq in Hn. split; [exact Hg|].
      destruct (Chat.name c); exact Hn.
    + intros [-> Hn]. cbn [andb]. apply String.eqb_eq.
      destruct (Chat.name c); exact Hn.
  - intros rv w tr group t lvl n chats Hauth Hg Hgid Ht Hne Hlvl Hn Hgne
      Hchats Hall.
    rewrite send_group_eq. unfold prepare. rewrite Hauth. cbn [negb].
    rewrite Hg, Hgid, Ht. cbn [bind]. rewrite (nonempty_true _ Hne).
    cbn [negb]. rewrite Hlvl, Hn. cbn [bind].
    rewrite (resolve_chat_name _ _ _ Hgne Hchats),
      (find_none_Forall _ _ Hall).
    reflexivity.
  - intros groupIdReq groupName Hne.
    split; [|split; [|split]].
    + intros Hthrow. unfold Legacy.resolve_chat.
      rewrite (nonempty_true _ Hne), Hthrow. reflexivity.
    + intros chat Hchat Hnot. unfold Legacy.resolve_chat.
      rewrite (nonempty_true _ Hne), Hchat.
      destruct chat as [c|]; [|reflexivity].
      rewrite (Hnot c eq_refl). reflexivity.
    + intros c Hchat Hgroup. unfold Legacy.resolve_chat.
      rewrite (nonempty_true _ Hne), Hchat, Hgroup. reflexivity.
    + intros listing.
      exact (proj1 (legacy_resolve_chat tp) _ _ listing Hne).
  - intros groupName chats _. exact (proj2 (legacy_resolve_chat tp) _ _).
Qed.

(** ** Validation *)

(** C7, as the handler has it: a request that arrives while the client is
    not ready is answered 503 whatever its body; while the client is ready,
    and the group fields convert to strings, a message that is empty after
    trimming is answered 400, and so is a request with a message, an ack and
    a timeout that convert, and neither group nor group identifier. *)
Theorem validation_after_readiness (StringToNumber : string -> number)
    (rv : revision) (cfg : Config) (tp : Transport) (b : Body.t)
    (w : World) (tr : list Event) :
  authorized cfg b = true ->
  send_group StringToNumber rv cfg false tp b w tr
  = Some (fail 503 "whatsapp not ready") /\
  (forall group groupId,
     field (Body.group b) = Ok group ->
     field (Body.groupId b) = Ok groupId ->
     field (Body.message b) = Ok "" ->
     send_group StringToNumber rv cfg true tp b w tr
     = Some (fail 400 "message is required")) /\
  (forall t lvl n,
     field (Body.group b) = Ok "" ->
     field (Body.groupId b) = Ok "" ->
     field (Body.message b) = Ok t -> t <> "" ->
     parseAckLevel (Body.ack b) (ACK_LEVEL_DEFAULT cfg) = Ok lvl ->
     ToNumber StringToNumber
       (Js.or (Body.timeoutMs b) (JNum (ACK_TIMEOUT_MS cfg))) = Ok n ->
     send_group StringToNumber rv cfg true tp b w tr
     = Some (fail 400 "groupId or group is required")).
Proof.
  intros Hauth. rewrite !send_group_eq. rewrite Hauth. cbn [negb].
  split; [reflexivity|split].
  - intros group groupId Hg Hgid Ht. unfold prepare. cbn [negb].
    rewrite Hg, Hgid, Ht. reflexivity.
  - intros t lvl n Hg Hgid Ht Hne Hlvl Hn. unfold prepare. cbn [negb].
    rewrite Hg, Hgid, Ht. cbn [bind]. rewrite (nonempty_true _ Hne).
    cbn [negb]. rewrite Hlvl, Hn. reflexivity.
Qed.

(** ** The listeners of the client *)

Lemma remove_first_elem (h x : nat) (l : list nat) :
  x ∈ remove_first h l -> x ∈ l.
Proof.
  induction l as [|y l IH]; cbn; [auto|].
  destruct (Nat.eqb_spec y h); rewrite ?elem_of_cons; intuition.
Qed.

Lemma remove_first_keeps (h x : nat) (l : list nat) :
  x <> h -> x ∈ l -> x ∈ remove_first h l.
Proof.
  intros Hne. induction l as [|y l IH]; cbn; [auto|].
  destruct (Nat.eqb_spec y h); rewrite ?elem_of_cons; intuition congruence.
Qed.

Lemma remove_first_NoDup (h : nat) (l : list nat) :
  NoDup l -> NoDup (remove_first h l) /\ h ∉ remove_first h l.
Proof.
  induction 1 as [|y l Hy Hl IH]; cbn.
  - split; [constructor | apply not_elem_of_nil].
  - destruct (Nat.eqb_spec y h) as [->|Hne]; [auto|].
    destruct IH as [IH1 IH2]. split.
    + constructor; [|exact IH1]. intros Hin. apply Hy.
      eapply remove_first_elem, Hin.
    + rewrite elem_of_cons. intuition.
Qed.

Lemma removeListener_elem (h x : nat) (l : list nat) :
  x ∈ removeListener h l -> x ∈ l.
Proof.
  unfold removeListener. rewrite elem_of_reverse. intros H.
  apply remove_first_elem in H. now apply elem_of_reverse.
Qed.

Lemma removeListener_keeps (h x : nat) (l : list nat) :
  x <> h -> x ∈ l -> x ∈ removeListener h l.
Proof.
  unfold removeListener. rewrite elem_of_reverse. intros Hne H.
  apply remove_first_keeps; [exact Hne | now apply elem_of_reverse].
Qed.

Lemma removeListener_NoDup (h : nat) (l : list nat) :
  NoDup l -> NoDup (removeListener h l) /\ h ∉ removeListener h l.
Proof.
  intros Hl. unfold removeListener.
  destruct (remove_first_NoDup h (reverse l)) as [H1 H2].
  { rewrite reverse_Permutation. exact Hl. }
  rewrite elem_of_reverse, reverse_Permutation. auto.
Qed.

(** ** The waits *)

Section WaitProperties.

Variable StringToNumber : string -> number.
Variable rv : revision.

Local Abbreviation onAck := (onAck StringToNumber rv).
Local Abbreviation call_listeners := (call_listeners StringToNumber rv).
Local Abbreviation emit := (emit StringToNumber rv).
Local Abbreviation step := (step StringToNumber rv).
Local Abbreviation run := (run StringToNumber rv).

(** What [cleanup] and [resolve] leave of the closures. *)
Lemma lookup_settled (h j : nat) (r : Resolution.t) (w : World) :
  closures (resolve h r (cleanup h w)) !! j
  = if decide (h = j) then record r <$> (settle <$> closures w !! h)
    else closures w !! j.
Proof.
  cbn. destruct (decide (h = j)) as [->|Hne].
  - now rewrite !list_lookup_alter_eq.
  - now rewrite !list_lookup_alter_ne.
Qed.

(** [onAck] returns the world as it is or resolves its own wait. *)
Lemma onAck_cases (h : nat) (msg : option Message.t) (ack : number)
    (w w' : World) :
  onAck h msg ack w = Ok w' ->
  w' = w \/
  (exists c, closures w !! h = Some c) /\
  w' = resolve h (Resolution.mk ack false) (cleanup h w).
Proof.
  unfold Loop.onAck. destruct (closures w !! h) as [c|] eqn:Hc.
  2: { intros [= <-]. now left. }
  destruct rv.
  - destruct (_ || _); [intros [= <-]; now left|].
    destruct (reaches _ _ _) as [[]|]; intros [= <-]; eauto.
  - destruct (strict_eq _ _); [|intros [= <-]; now left].
    destruct (reaches _ _ _) as [[]|]; cbn; intros [= <-]; eauto.
Qed.

Lemma onAck_other (h j : nat) (msg : option Message.t) (ack : number)
    (w w' : World) :
  onAck h msg ack w = Ok w' -> h <> j -> closures w' !! j = closures w !! j.
Proof.
  intros H Hne. apply onAck_cases in H as [->|[_ ->]]; [reflexivity|].
  rewrite lookup_settled. now destruct (decide (h = j)).
Qed.

(** A listener that is not called leaves its wait alone. *)
Lemma call_listeners_other (j : nat) (msg : option Message.t) (ack : number)
    (snapshot : list nat) (w : World) :
  j ∉ snapshot ->
  closures (call_listeners snapshot msg ack w) !! j = closures w !! j.
Proof.
  revert w. induction snapshot as [|h rest IH]; intros w Hj; [reflexivity|].
  apply not_elem_of_cons in Hj as [Hne Hj]. cbn.
  destruct (onAck h msg ack w) as [w'|] eqn:Hw; [|reflexivity].
  rewrite (IH _ Hj). eapply onAck_other; eauto.
Qed.

(** *** Consistency *)

Lemma consistent_init : consistent init.
Proof.
  split; [constructor|]. split.
  - intros h Hh. now apply elem_of_nil in Hh.
  - intros h c Hc. discriminate.
Qed.

Lemma consistent_settle (h : nat) (c : Closure) (r : Resolution.t)
    (w : World) :
  consistent w -> closures w !! h = Some c -> settled c = false ->
  consistent (resolve h r (cleanup h w)).
Proof.
  intros (Hnd & Hl & Hc) Hh Hs.
  destruct (removeListener_NoDup h _ Hnd) as [Hnd' Hout].
  split; [exact Hnd'|]. split.
  - intros j Hj. cbn in Hj.
    assert (Hne : h <> j) by (intros ->; contradiction).
    apply removeListener_elem in Hj. apply Hl in Hj as (cj & Hcj & Hsj).
    exists cj. rewrite lookup_settled. now destruct (decide (h = j)).
  - intros j cj. rewrite lookup_settled.
    destruct (decide (h = j)) as [<-|Hne].
    + rewrite Hh. intros [= <-]. cbn. specialize (Hc _ _ Hh).
      rewrite Hs in Hc. destruct Hc as (-> & _). reflexivity.
    + intros Hj. specialize (Hc _ _ Hj). destruct (settled cj); [exact Hc|].
      destruct Hc as (Hr & Hin & Hp). repeat split; auto.
      cbn. apply removeListener_keeps; auto.
Qed.

Lemma consistent_onAck (h : nat) (msg : option Message.t) (ack : number)
    (w w' : World) :
  consistent w -> h ∈ listeners w -> onAck h msg ack w = Ok w' ->
  consistent w'.
Proof.
  intros Hw Hh H. apply onAck_cases in H as [->|[_ ->]]; [exact Hw|].
  destruct Hw as (Hnd & Hl & Hc). destruct (Hl _ Hh) as (c & Hc' & Hs).
  eapply consistent_settle; eauto. now split.
Qed.

Lemma onAck_listeners (h j : nat) (msg : option Message.t) (ack : number)
    (w w' : World) :
  onAck h msg ack w = Ok w' -> h <> j -> j ∈ listeners w -> j ∈ listeners w'.
Proof.
  intros H Hne Hj. apply onAck_cases in H as [->|[_ ->]]; [exact Hj|].
  cbn. apply removeListener_keeps; auto.
Qed.

Lemma consistent_call_listeners (msg : option Message.t) (ack : number)
    (snapshot : list nat) (w : World) :
  consistent w -> NoDup snapshot ->
  (forall h, h ∈ snapshot -> h ∈ listeners w) ->
  consistent (call_listeners snapshot msg ack w).
Proof.
  revert w. induction snapshot as [|h rest IH]; intros w Hw Hnd Hsub;
    [exact Hw|].
  apply NoDup_cons in Hnd as [Hh Hnd]. cbn.
  destruct (onAck h msg ack w) as [w'|] eqn:Hw'; [|exact Hw].
  apply IH; [|exact Hnd|].
  - eapply consistent_onAck; eauto. apply Hsub, elem_of_cons. now left.
  - intros j Hj. eapply onAck_listeners; eauto.
    + intros ->. contradiction.
    + apply Hsub, elem_of_cons. now right.
Qed.


Lemma pending_disarm (h j : nat) (w : World) :
  j <> h -> pending j (disarm h w) = pending j w.
Proof.
  intros Hne. unfold pending, disarm. cbn.
  induction (timers w) as [|[k t] l IH]; [reflexivity|].
  rewrite filter_cons. cbn [fst].
  destruct (decide (k <> h)) as [Hk|Hk]; cbn; rewrite IH; [reflexivity|].
  destruct (Nat.eqb_spec k j); [|reflexivity].
  exfalso. apply Hk. congruence.
Qed.

Lemma consistent_disarm (h : nat) (w : World) :
  consistent w ->
  (forall c, closures w !! h = Some c -> settled c = true) ->
  consistent (disarm h w).
Proof.
  intros (Hnd & Hl & Hc) Hh. split; [exact Hnd|]. split; [exact Hl|].
  intros j c Hj. cbn in Hj. specialize (Hc _ _ Hj).
  destruct (settled c) eqn:Hs; [exact Hc|].
  destruct Hc as (Hr & Hin & Hp). repeat split; auto.
  rewrite pending_disarm; [exact Hp|].
  intros ->. apply Hh in Hj. congruence.
Qed.

Lemma consistent_fire (h : nat) (w : World) :
  consistent w -> consistent (fire h w).
Proof.
  intros Hw. unfold fire. destruct (pending h w); [|exact Hw].
  unfold onTimeout. change (closures (disarm h w)) with (closures w).
  destruct (closures w !! h) as [c|] eqn:Hc.
  - destruct (settled c) eqn:Hs.
    + apply consistent_disarm; [exact Hw|]. congruence.
    + set (r := Resolution.mk _ _).
      change (resolve h r (cleanup h (disarm h w)))
        with (disarm h (resolve h r (cleanup h w))).
      apply consistent_disarm; [eapply consistent_settle; eauto|].
      intros c'. rewrite lookup_settled, Hc.
      destruct (decide (h = h)); [|congruence]. now intros [= <-].
  - apply consistent_disarm; [exact Hw|]. congruence.
Qed.

Lemma consistent_waitForAck (m : Message.t) (minAck : jsval) (t : number)
    (w : World) :
  consistent w -> consistent (snd (waitForAck m minAck t w)).
Proof.
  intros (Hnd & Hl & Hc). cbn.
  set (c0 := mkClosure _ _ _ _ _). set (h := length (closures w)).
  assert (Hfresh : h ∉ listeners w).
  { intros Hin. apply Hl in Hin as (c & Hc' & _).
    apply lookup_lt_Some in Hc'. unfold h in Hc'. lia. }
  split; [|split].
  - cbn. apply NoDup_app. split; [exact Hnd|]. split.
    + intros x Hx Hx'. apply list_elem_of_singleton in Hx'. congruence.
    + apply NoDup_singleton.
  - intros j Hj. cbn in Hj |- *. apply elem_of_app in Hj as [Hj|Hj].
    + destruct (Hl _ Hj) as (c & Hc' & Hs). exists c. split; [|exact Hs].
      rewrite lookup_app_l; [exact Hc'|]. eapply lookup_lt_Some; eauto.
    + apply list_elem_of_singleton in Hj as ->. exists c0.
      split; [|reflexivity]. apply list_lookup_middle. reflexivity.
  - intros j c Hj. cbn in Hj. apply lookup_snoc_Some in Hj as [[_ Hj]|[-> <-]].
    + specialize (Hc _ _ Hj). destruct (settled c); [exact Hc|].
      destruct Hc as (Hr & Hin & Hp). repeat split; auto.
      * cbn. apply elem_of_app. now left.
      * unfold pending in *. cbn. rewrite existsb_app, Hp. reflexivity.
    + cbn. repeat split.
      * apply elem_of_app. right. now apply list_elem_of_singleton.
      * unfold pending. cbn. rewrite existsb_app. cbn.
        rewrite Nat.eqb_refl. now rewrite orb_true_r.
Qed.

Lemma consistent_step (w : World) (e : Event) :
  consistent w -> consistent (step w e).
Proof.
  intros Hw. destruct e as [m minAck t|msg ack|h]; cbn.
  - now apply consistent_waitForAck.
  - apply consistent_call_listeners; [exact Hw| |auto]. apply Hw.
  - now apply consistent_fire.
Qed.

Lemma consistent_run (tr : list Event) (w : World) :
  consistent w -> consistent (run w tr).
Proof.
  revert w. induction tr as [|e tr IH]; intros w Hw; [exact Hw|].
  cbn. apply IH, consistent_step, Hw.
Qed.


(** *** A wait keeps its closure *)

Lemma same_wait_refl (c : Closure) : same_wait c c.
Proof. now repeat split. Qed.

Lemma same_wait_trans (c1 c2 c3 : Closure) :
  same_wait c1 c2 -> same_wait c2 c3 -> same_wait c1 c3.
Proof. unfold same_wait. intuition congruence. Qed.

Lemma onAck_keeps (h j : nat) (msg : option Message.t) (ack : number)
    (w w' : World) (c : Closure) :
  onAck h msg ack w = Ok w' -> closures w !! j = Some c ->
  exists c', closures w' !! j = Some c' /\ same_wait c c'.
Proof.
  intros H Hc. apply onAck_cases in H as [->|[_ ->]].
  - exists c. split; [exact Hc | apply same_wait_refl].
  - rewrite lookup_settled. destruct (decide (h = j)) as [->|Hne].
    + rewrite Hc. eexists. split; [reflexivity|]. now repeat split.
    + exists c. split; [exact Hc | apply same_wait_refl].
Qed.

Lemma call_listeners_keeps (j : nat) (msg : option Message.t) (ack : number)
    (snapshot : list nat) (w : World) (c : Closure) :
  closures w !! j = Some c ->
  exists c', closures (call_listeners snapshot msg ack w) !! j = Some c'
             /\ same_wait c c'.
Proof.
  revert w c. induction snapshot as [|h rest IH]; intros w c Hc; cbn.
  - exists c. split; [exact Hc | apply same_wait_refl].
  - destruct (onAck h msg ack w) as [w'|] eqn:Hw.
    + destruct (onAck_keeps _ _ _ _ _ _ _ Hw Hc) as (c1 & Hc1 & H1).
      destruct (IH _ _ Hc1) as (c2 & Hc2 & H2).
      exists c2. split; [exact Hc2 | eapply same_wait_trans; eauto].
    + exists c. split; [exact Hc | apply same_wait_refl].
Qed.

Lemma fire_other (h j : nat) (w : World) :
  h <> j -> closures (fire h w) !! j = closures w !! j.
Proof.
  intros Hne. unfold fire. destruct (pending h w); [|reflexivity].
  unfold onTimeout. change (closures (disarm h w)) with (closures w).
  destruct (closures w !! h) as [c|]; [|reflexivity].
  destruct (settled c); [reflexivity|].
  rewrite lookup_settled. now destruct (decide (h = j)).
Qed.

Lemma fire_settled (h : nat) (w : World) (c : Closure) :
  closures w !! h = Some c -> settled c = true ->
  closures (fire h w) = closures w.
Proof.
  intros Hc Hs. unfold fire. destruct (pending h w); [|reflexivity].
  unfold onTimeout. change (closures (disarm h w)) with (closures w).
  now rewrite Hc, Hs.
Qed.

(** The timer of a wait that has not settled resolves it with the last
    known level of its message. *)
Lemma fire_unsettled (h : nat) (w : World) (c : Closure) :
  consistent w -> closures w !! h = Some c -> settled c = false ->
  closures (fire h w) !! h
  = Some (record (Resolution.mk (lastKnown (message c)) true) (settle c)).
Proof.
  intros Hw Hc Hs. destruct Hw as (_ & _ & Hw). specialize (Hw _ _ Hc).
  rewrite Hs in Hw. destruct Hw as (_ & _ & Hp).
  unfold fire. rewrite Hp. unfold onTimeout.
  change (closures (disarm h w)) with (closures w). rewrite Hc, Hs.
  rewrite lookup_settled. change (closures (disarm h w)) with (closures w).
  rewrite Hc. now destruct (decide (h = h)).
Qed.

Lemma step_keeps (j : nat) (w : World) (e : Event) (c : Closure) :
  closures w !! j = Some c ->
  exists c', closures (step w e) !! j = Some c' /\ same_wait c c'.
Proof.
  intros Hc. destruct e as [m minAck t|msg ack|h]; cbn.
  - exists c. split; [|apply same_wait_refl].
    rewrite lookup_app_l; [exact Hc|]. eapply lookup_lt_Some; eauto.
  - now apply call_listeners_keeps.
  - destruct (decide (h = j)) as [->|Hne].
    + unfold fire. destruct (pending j w);
        [|exists c; split; [exact Hc | apply same_wait_refl]].
      unfold onTimeout. change (closures (disarm j w)) with (closures w).
      rewrite Hc. destruct (settled c).
      * exists c. split; [exact Hc | apply same_wait_refl].
      * rewrite lookup_settled. change (closures (disarm j w)) with (closures w).
        rewrite Hc. destruct (decide (j = j)); [|congruence].
        eexists. split; [reflexivity|]. now repeat split.
    + exists c. split; [|apply same_wait_refl]. now rewrite fire_other.
Qed.

Lemma run_keeps (j : nat) (tr : list Event) (w : World) (c : Closure) :
  closures w !! j = Some c ->
  exists c', closures (run w tr) !! j = Some c' /\ same_wait c c'.
Proof.
  revert w c. induction tr as [|e tr IH]; intros w c Hc; cbn.
  - exists c. split; [exact Hc | apply same_wait_refl].
  - destruct (step_keeps _ _ e _ Hc) as (c1 & Hc1 & H1).
    destruct (IH _ _ Hc1) as (c2 & Hc2 & H2).
    exists c2. split; [exact Hc2 | eapply same_wait_trans; eauto].
Qed.

(** *** A settled wait is left alone *)

Lemma step_settled (h : nat) (w : World) (e : Event) (c : Closure) :
  consistent w -> closures w !! h = Some c -> settled c = true ->
  closures (step w e) !! h = Some c.
Proof.
  intros Hw Hc Hs. destruct e as [m minAck t|msg ack|j]; cbn.
  - rewrite lookup_app_l; [exact Hc|]. eapply lookup_lt_Some; eauto.
  - unfold Loop.emit. rewrite call_listeners_other; [exact Hc|].
    intros Hin. destruct Hw as (_ & Hl & _).
    apply Hl in Hin as (c' & Hc' & Hs'). congruence.
  - destruct (decide (j = h)) as [->|Hne].
    + now rewrite (fire_settled _ _ _ Hc Hs).
    + now rewrite fire_other.
Qed.

Lemma run_settled (h : nat) (tr : list Event) (w : World) (c : Closure) :
  consistent w -> closures w !! h = Some c -> settled c = true ->
  closures (run w tr) !! h = Some c.
Proof.
  revert w. induction tr as [|e tr IH]; intros w Hw Hc Hs; [exact Hc|].
  cbn. apply IH; [apply consistent_step, Hw| |exact Hs].
  now apply step_settled.
Qed.

Lemma run_app (tr1 tr2 : list Event) (w : World) :
  run w (tr1 ++ tr2) = run (run w tr1) tr2.
Proof. apply fold_left_app. Qed.

(** The closure of a new wait. *)
Lemma waitForAck_closure (m : Message.t) (minAck : jsval) (t : number)
    (w : World) :
  closures (snd (waitForAck m minAck t w)) !! length (closures w)
  = Some {| targetId := serializedId (Some m); minAckCode := minAck;
            message := m; settled := false; resolved := [] |}.
Proof. cbn. apply list_lookup_middle. reflexivity. Qed.

(** C1. A wait resolves once: whatever the loop has run before the call
    and whatever it runs after it, the wait has resolved at most once; it
    has resolved once its timer has fired; and once it has resolved, no
    event changes it. *)
Theorem resolves_once (before : list Event) (m : Message.t)
    (minAck : jsval) (t : number) (tr : list Event) :
  let w := run init before in
  let h := length (closures w) in
  let w' := run w (Call m minAck t :: tr) in
  exists c,
    closures w' !! h = Some c /\
    length (resolved c) <= 1 /\
    (Fire h ∈ tr -> length (resolved c) = 1) /\
    (resolved c <> [] -> forall e, closures (step w' e) !! h = Some c).
Proof.
  intros w h w'.
  assert (Hw : consistent w) by apply consistent_run, consistent_init.
  assert (Hw' : consistent w') by apply consistent_run, Hw.
  pose proof (waitForAck_closure m minAck t w) as H0. fold h in H0.
  assert (H1 : exists c, closures w' !! h = Some c).
  { destruct (run_keeps h tr _ _ H0) as (c & Hc & _). eauto. }
  destruct H1 as (c & Hc). exists c. split; [exact Hc|].
  pose proof Hw' as (_ & _ & Hinv). specialize (Hinv _ _ Hc).
  split; [|split].
  - destruct (settled c); [lia|]. destruct Hinv as (-> & _). cbn. lia.
  - intros Hin. apply list_elem_of_split in Hin as (tr1 & tr2 & ->).
    set (w1 := run w (Call m minAck t :: tr1)).
    assert (Hw1 : consistent w1) by apply consistent_run, Hw.
    destruct (run_keeps h tr1 _ _ H0) as (c1 & Hc1 & _). fold w1 in Hc1.
    assert (H2 : exists c2, closures (fire h w1) !! h = Some c2
                            /\ settled c2 = true).
    { destruct (settled c1) eqn:Hs1.
      - exists c1. split; [|exact Hs1].
        now rewrite (fire_settled h w1 c1 Hc1 Hs1).
      - rewrite (fire_unsettled h w1 c1 Hw1 Hc1 Hs1). eauto. }
    destruct H2 as (c2 & Hc2 & Hs2).
    assert (Hc' : closures w' !! h = Some c2).
    { unfold w'. change (Call m minAck t :: tr1 ++ Fire h :: tr2)
        with ((Call m minAck t :: tr1) ++ Fire h :: tr2)%list.
      rewrite run_app. fold w1. cbn.
      apply run_settled; [apply consistent_fire, Hw1|exact Hc2|exact Hs2]. }
    rewrite Hc in Hc'. injection Hc' as ->. rewrite Hs2 in Hinv. exact Hinv.
  - intros Hne e. apply step_settled; [exact Hw'|exact Hc|].
    destruct (settled c); [reflexivity|]. destruct Hinv as (Hr & _).
    congruence.
Qed.

(** *** Events for another message *)

Lemma strict_eq_eq (a b : jsval) : strict_eq a b = true -> a = b.
Proof.
  destruct a, b; cbn; try discriminate; try reflexivity.
  - intros H. apply Bool.eqb_prop in H. congruence.
  - destruct n as [|x|x], n0 as [|y|y]; cbn; try discriminate.
    + intros H. apply Bool.eqb_prop in H. congruence.
    + intros H. apply Z.eqb_eq in H. congruence.
  - intros H. apply String.eqb_eq in H. congruence.
Qed.

(** A listener that returns at once leaves its wait as it is through
    the whole [emit]. *)
Lemma call_listeners_skip (h : nat) (msg : option Message.t) (ack : number)
    (c : Closure) (snapshot : list nat) (w : World) :
  (forall w0, closures w0 !! h = Some c -> onAck h msg ack w0 = Ok w0) ->
  closures w !! h = Some c ->
  closures (call_listeners snapshot msg ack w) !! h = Some c.
Proof.
  intros Hskip. revert w. induction snapshot as [|j rest IH]; intros w Hc;
    [exact Hc|].
  cbn. destruct (decide (j = h)) as [->|Hne].
  - rewrite (Hskip _ Hc). now apply IH.
  - destruct (onAck j msg ack w) as [w'|] eqn:Hw; [|exact Hc].
    apply IH. rewrite <- Hc. eapply onAck_other; eauto.
Qed.

Lemma onAck_foreign (h : nat) (msg : option Message.t) (ack : number)
    (c : Closure) (w : World) :
  strict_eq (serializedId msg) (targetId c) = false ->
  closures w !! h = Some c -> onAck h msg ack w = Ok w.
Proof.
  intros Hne Hc. unfold Loop.onAck. rewrite Hc, Hne.
  destruct rv; [|reflexivity]. now rewrite orb_true_r.
Qed.

(** C3. Of two waits in flight for messages with distinct identifiers,
    the later is left as it is by an event that carries the identifier of
    the former's message; a listener changes its wait only on an event
    whose identifier is strictly equal to its own target. *)
Theorem waits_isolated (before : list Event)
    (A : Message.t) (minA : jsval) (tA : number) (between : list Event)
    (B : Message.t) (minB : jsval) (tB : number) (after : list Event) :
  serializedId (Some A) <> serializedId (Some B) ->
  let w0 := run init before in
  let hA := length (closures w0) in
  let w1 := run w0 (Call A minA tA :: between) in
  let hB := length (closures w1) in
  let w2 := run w1 (Call B minB tB :: after) in
  (forall msg ack,
     serializedId msg = serializedId (Some A) ->
     closures (step w2 (Emit msg ack)) !! hB = closures w2 !! hB) /\
  (forall msg ack,
     serializedId msg = serializedId (Some B) ->
     closures (step w2 (Emit msg ack)) !! hA = closures w2 !! hA) /\
  (forall (w : World) (h : nat) (c : Closure) msg ack,
     closures w !! h = Some c ->
     closures (step w (Emit msg ack)) !! h <> Some c ->
     strict_eq (serializedId msg) (targetId c) = true).
Proof.
  intros Hdistinct w0 hA w1 hB w2.
  assert (Hskip : forall (w : World) (h : nat) (c : Closure) msg ack,
    closures w !! h = Some c ->
    strict_eq (serializedId msg) (targetId c) = false ->
    closures (step w (Emit msg ack)) !! h = Some c).
  { intros w h c msg ack Hc Hne. cbn. apply call_listeners_skip; [|exact Hc].
    intros w0'. now apply onAck_foreign. }
  split; [|split].
  - intros msg ack Hmsg.
    pose proof (waitForAck_closure B minB tB w1) as H0. fold hB in H0.
    destruct (run_keeps hB after _ _ H0) as (c & Hc & Htarget & _).
    change (closures w2 !! hB = Some c) in Hc.
    rewrite Hc. apply Hskip; [exact Hc|].
    rewrite Htarget. cbn [targetId].
    destruct (strict_eq _ _) eqn:E; [|reflexivity].
    apply strict_eq_eq in E. congruence.
  - intros msg ack Hmsg.
    pose proof (waitForAck_closure A minA tA w0) as H0. fold hA in H0.
    destruct (run_keeps hA between _ _ H0) as (c1 & Hc1 & H1).
    change (closures w1 !! hA = Some c1) in Hc1.
    destruct (run_keeps hA (Call B minB tB :: after) _ _ Hc1)
      as (c & Hc & H2).
    change (closures w2 !! hA = Some c) in Hc.
    destruct (same_wait_trans _ _ _ H1 H2) as (Htarget & _).
    rewrite Hc. apply Hskip; [exact Hc|].
    rewrite Htarget. cbn [targetId].
    destruct (strict_eq _ _) eqn:E; [|reflexivity].
    apply strict_eq_eq in E. congruence.
  - intros w h c msg ack Hc Hchanged.
    destruct (strict_eq _ _) eqn:E; [reflexivity|].
    exfalso. apply Hchanged. now apply Hskip.
Qed.

End WaitProperties.

(** ** The wait of [part_002] along a trace *)

Section GuardedWaits.

Variable StringToNumber : string -> number.

Local Abbreviation onAck := (onAck StringToNumber Guarded).
Local Abbreviation call_listeners := (call_listeners StringToNumber Guarded).
Local Abbreviation emit := (emit StringToNumber Guarded).
Local Abbreviation step := (step StringToNumber Guarded).
Local Abbreviation run := (run StringToNumber Guarded).
Local Abbreviation qualifies := (qualifies StringToNumber).
Local Abbreviation outcome := (outcome StringToNumber).

(** [onAck] resolves its wait exactly on a qualifying event, and no
    exception leaves it. *)
Lemma onAck_qualifies (h : nat) (msg : option Message.t) (ack : number)
    (c : Closure) (w : World) :
  closures w !! h = Some c ->
  onAck h msg ack w
  = Ok (if qualifies (targetId c) (minAckCode c) (Emit msg ack)
        then resolve h (Resolution.mk ack false) (cleanup h w)
        else w).
Proof.
  intros Hc. unfold Loop.onAck, Trace.qualifies. rewrite Hc.
  destruct (Js.truthy _), (strict_eq _ _); cbn [negb orb andb];
    try reflexivity.
  destruct (reaches _ _ _) as [[]|]; reflexivity.
Qed.

Lemma onAck_total (h : nat) (msg : option Message.t) (ack : number)
    (w : World) :
  exists w', onAck h msg ack w = Ok w'.
Proof.
  destruct (closures w !! h) as [c|] eqn:Hc.
  - rewrite (onAck_qualifies _ _ _ _ _ Hc). eauto.
  - unfold Loop.onAck. rewrite Hc. eauto.
Qed.

(** The listener of a wait is reached whatever the listeners before it
    do. *)
Lemma call_listeners_hit (h : nat) (msg : option Message.t) (ack : number)
    (c : Closure) (snapshot : list nat) (w : World) :
  NoDup snapshot -> h ∈ snapshot ->
  closures w !! h = Some c ->
  qualifies (targetId c) (minAckCode c) (Emit msg ack) = true ->
  closures (call_listeners snapshot msg ack w) !! h
  = Some (record (Resolution.mk ack false) (settle c)).
Proof.
  intros Hnd Hin Hc Hq. revert w Hc.
  induction snapshot as [|j rest IH]; intros w Hc.
  - now apply elem_of_nil in Hin.
  - apply NoDup_cons in Hnd as [Hj Hnd]. cbn.
    destruct (decide (j = h)) as [->|Hne].
    + rewrite (onAck_qualifies _ _ _ _ _ Hc), Hq.
      rewrite call_listeners_other; [|exact Hj].
      rewrite lookup_settled, Hc. now destruct (decide (h = h)).
    + destruct (onAck_total j msg ack w) as (w' & Hw'). rewrite Hw'.
      apply elem_of_cons in Hin as [->|Hin]; [congruence|].
      apply IH; auto. rewrite <- Hc. eapply onAck_other; eauto.
Qed.

Lemma step_quiet (h : nat) (e : Event) (c : Closure) (w : World) :
  closures w !! h = Some c ->
  outcome h (targetId c) (minAckCode c) (lastKnown (message c)) [e] = None ->
  closures (step w e) !! h = Some c.
Proof.
  intros Hc Hq.
  destruct e as [m minAck t|msg ack|j]; cbn [Trace.outcome] in Hq; cbn.
  - rewrite lookup_app_l; [exact Hc|]. eapply lookup_lt_Some; eauto.
  - apply call_listeners_skip; [|exact Hc]. intros w0 Hc0.
    rewrite (onAck_qualifies _ _ _ _ _ Hc0).
    destruct (qualifies _ _ _); [discriminate | reflexivity].
  - destruct (Nat.eqb_spec j h); [discriminate|]. now rewrite fire_other.
Qed.

(** The wait as the loop runs it reaches the outcome of its trace. *)
Lemma run_outcome (h : nat) (tr : list Event) (c : Closure) (w : World) :
  consistent w -> closures w !! h = Some c -> settled c = false ->
  closures (run w tr) !! h
  = Some match outcome h (targetId c) (minAckCode c)
                 (lastKnown (message c)) tr with
         | Some r => record r (settle c)
         | None => c
         end.
Proof.
  revert w. induction tr as [|e tr IH]; intros w Hw Hc Hs; [exact Hc|].
  assert (Hstep : consistent (step w e))
    by apply (consistent_step StringToNumber Guarded), Hw.
  destruct (outcome h (targetId c) (minAckCode c) (lastKnown (message c)) [e])
    as [r|] eqn:He.
  - assert (Hr : closures (step w e) !! h = Some (record r (settle c))
                 /\ outcome h (targetId c) (minAckCode c)
                      (lastKnown (message c)) (e :: tr) = Some r).
    { destruct e as [m minAck t|msg ack|j];
        cbn [Trace.outcome] in He |- *.
      - discriminate.
      - destruct (qualifies _ _ _) eqn:Hq; [|discriminate].
        injection He as <-. split; [|reflexivity].
        destruct Hw as (Hnd & _ & Hinv). specialize (Hinv _ _ Hc).
        rewrite Hs in Hinv. destruct Hinv as (_ & Hin & _).
        now apply call_listeners_hit.
      - destruct (Nat.eqb_spec j h) as [->|]; [|discriminate].
        injection He as <-. split; [|reflexivity].
        now apply fire_unsettled. }
    destruct Hr as (Hr1 & ->). cbn [Loop.run fold_left].
    now apply (run_settled StringToNumber Guarded).
  - assert (Hrest : outcome h (targetId c) (minAckCode c)
                      (lastKnown (message c)) (e :: tr)
                    = outcome h (targetId c) (minAckCode c)
                        (lastKnown (message c)) tr).
    { destruct e as [m minAck t|msg ack|j];
        cbn [Trace.outcome] in He |- *.
      - reflexivity.
      - now destruct (qualifies _ _ _).
      - now destruct (Nat.eqb j h). }
    rewrite Hrest. cbn [Loop.run fold_left].
    apply IH; [exact Hstep| |exact Hs]. now apply step_quiet.
Qed.

(** From the call on, the closure of a wait is decided by the outcome
    of the events that follow. *)
Lemma wait_outcome (before : list Event) (m : Message.t) (minAck : jsval)
    (t : number) (tr : list Event) :
  let w := run init before in
  let h := length (closures w) in
  closures (run w (Call m minAck t :: tr)) !! h
  = Some match outcome h (serializedId (Some m)) minAck (lastKnown m) tr with
         | Some r =>
             {| targetId := serializedId (Some m); minAckCode := minAck;
                message := m; settled := true; resolved := [r] |}
         | None =>
             {| targetId := serializedId (Some m); minAckCode := minAck;
                message := m; settled := false; resolved := [] |}
         end.
Proof.
  intros w h.
  assert (Hw : consistent w)
    by apply (consistent_run StringToNumber Guarded), consistent_init.
  pose proof (consistent_waitForAck m minAck t w Hw) as Hw1.
  pose proof (waitForAck_closure m minAck t w) as Hc. fold h in Hc.
  cbn [Loop.run fold_left Loop.step].
  change (fold_left step tr ?x) with (run x tr).
  rewrite (run_outcome h tr _ _ Hw1 Hc eq_refl). cbn.
  now destruct (outcome _ _ _ _ _).
Qed.

Lemma outcome_app (h : nat) (target minAck : jsval) (known : number)
    (tr1 tr2 : list Event) :
  outcome h target minAck known (tr1 ++ tr2)
  = match outcome h target minAck known tr1 with
    | Some r => Some r
    | None => outcome h target minAck known tr2
    end.
Proof.
  induction tr1 as [|e tr1 IH]; [reflexivity|].
  destruct e as [m a t|msg ack|j]; cbn [app Trace.outcome].
  - exact IH.
  - destruct (qualifies _ _ _); [reflexivity | exact IH].
  - destruct (Nat.eqb j h); [reflexivity | exact IH].
Qed.

(** Before its timer fires, a wait resolves on a qualifying event only. *)
Lemma outcome_before_timer (h : nat) (target minAck : jsval)
    (known : number) (tr : list Event) :
  Fire h ∉ tr ->
  match outcome h target minAck known tr with
  | Some r =>
      Resolution.timedOut r = false /\
      exists msg, Emit msg (Resolution.ack r) ∈ tr /\
        qualifies target minAck (Emit msg (Resolution.ack r)) = true
  | None =>
      forall msg ack, Emit msg ack ∈ tr ->
        qualifies target minAck (Emit msg ack) = false
  end.
Proof.
  induction tr as [|e tr IH]; intros Hfire.
  - cbn. intros msg ack Hin. now apply elem_of_nil in Hin.
  - apply not_elem_of_cons in Hfire as [Hne Hfire]. specialize (IH Hfire).
    destruct e as [m a t|msg ack|j]; cbn [Trace.outcome].
    + destruct (outcome _ _ _ _ _) as [r|].
      * destruct IH as (Ht & msg & Hin & Hq). split; [exact Ht|].
        exists msg. split; [|exact Hq]. apply elem_of_cons. now right.
      * intros msg ack Hin. apply elem_of_cons in Hin as [Hin|Hin];
          [discriminate | eauto].
    + destruct (qualifies target minAck (Emit msg ack)) eqn:Hq.
      * split; [reflexivity|]. exists msg. cbn. split; [|exact Hq].
        apply elem_of_cons. now left.
      * destruct (outcome _ _ _ _ _) as [r|].
        -- destruct IH as (Ht & msg' & Hin & Hq'). split; [exact Ht|].
           exists msg'. split; [|exact Hq']. apply elem_of_cons. now right.
        -- intros msg' ack' Hin. apply elem_of_cons in Hin as [Hin|Hin];
             [congruence | eauto].
    + destruct (Nat.eqb_spec j h) as [->|_]; [congruence|].
      destruct (outcome _ _ _ _ _) as [r|].
      * destruct IH as (Ht & msg & Hin & Hq). split; [exact Ht|].
        exists msg. split; [|exact Hq]. apply elem_of_cons. now right.
      * intros msg ack Hin. apply elem_of_cons in Hin as [Hin|Hin];
          [discriminate | eauto].
Qed.

(** For a message that has an identifier, a qualifying event is one
    that carries the identifier and a level that reaches the minimum. *)
Lemma qualifies_identifier (i : string) (minAck : jsval)
    (msg : option Message.t) (ack : number) :
  i <> "" ->
  qualifies (JStr i) minAck (Emit msg ack) = true <->
  serializedId msg = JStr i /\ reaches StringToNumber ack minAck = Ok true.
Proof.
  intros Hi. unfold Trace.qualifies. split.
  - intros H. apply andb_prop in H as [H Hr].
    apply andb_prop in H as [_ He]. apply strict_eq_eq in He.
    split; [exact He|]. now destruct (reaches _ _ _) as [[]|].
  - intros [-> ->]. cbn. rewrite String.eqb_refl.
    now rewrite (nonempty_true _ Hi).
Qed.

(** C4. The first event that carries the identifier of the awaited
    message and a level that reaches the minimum resolves the wait with
    its own level, whatever events come later. *)
Theorem first_qualifying_wins (before : list Event) (m : Message.t)
    (minAck : jsval) (t : number) (pre post : list Event)
    (msg : option Message.t) (L : number) (i : string) :
  serializedId (Some m) = JStr i -> i <> "" ->
  let w := run init before in
  let h := length (closures w) in
  Fire h ∉ pre ->
  (forall msg' a, Emit msg' a ∈ pre -> serializedId msg' = JStr i ->
     reaches StringToNumber a minAck <> Ok true) ->
  serializedId msg = JStr i ->
  reaches StringToNumber L minAck = Ok true ->
  exists c,
    closures (run w (Call m minAck t :: pre ++ Emit msg L :: post)) !! h
    = Some c /\
    resolved c = [Resolution.mk L false] /\
    promise c = Some (Resolution.mk L false).
Proof.
  intros Hid Hi w h Hfire Hpre Hmsg HL.
  rewrite (wait_outcome before m minAck t). fold w h.
  rewrite outcome_app, Hid.
  pose proof (outcome_before_timer h (JStr i) minAck (lastKnown m) pre Hfire)
    as Hout.
  destruct (outcome h (JStr i) minAck (lastKnown m) pre) as [r|].
  - exfalso. destruct Hout as (_ & msg' & Hin & Hq).
    apply (qualifies_identifier _ _ _ _ Hi) in Hq as [Hq1 Hq2].
    now apply (Hpre _ _ Hin Hq1).
  - cbn [Trace.outcome].
    assert (Hq : qualifies (JStr i) minAck (Emit msg L) = true)
      by now apply qualifies_identifier.
    rewrite Hq. eexists. split; [reflexivity|]. split; reflexivity.
Qed.

(** C2. When the timer of a wait fires, the wait has resolved once, and
    it has timed out if and only if no event before the timer carried the
    identifier of the awaited message and a level that reaches the
    minimum. *)
Theorem timedOut_iff (before : list Event) (m : Message.t)
    (minAck : jsval) (t : number) (pre post : list Event) (i : string) :
  serializedId (Some m) = JStr i -> i <> "" ->
  let w := run init before in
  let h := length (closures w) in
  Fire h ∉ pre ->
  exists c r,
    closures (run w (Call m minAck t :: pre ++ Fire h :: post)) !! h
    = Some c /\
    resolved c = [r] /\
    (Resolution.timedOut r = true <->
     ~ exists msg a, Emit msg a ∈ pre /\ serializedId msg = JStr i /\
                     reaches StringToNumber a minAck = Ok true).
Proof.
  intros Hid Hi w h Hfire.
  rewrite (wait_outcome before m minAck t). fold w h.
  rewrite outcome_app, Hid.
  pose proof (outcome_before_timer h (JStr i) minAck (lastKnown m) pre Hfire)
    as Hout.
  destruct (outcome h (JStr i) minAck (lastKnown m) pre) as [r|].
  - eexists. exists r. split; [reflexivity|]. split; [reflexivity|].
    destruct Hout as (Ht & msg & Hin & Hq).
    apply (qualifies_identifier _ _ _ _ Hi) in Hq as [Hq1 Hq2].
    rewrite Ht. split; [discriminate|]. intros Hno. exfalso. apply Hno.
    eauto.
  - cbn [Trace.outcome]. rewrite Nat.eqb_refl.
    eexists. eexists. split; [reflexivity|]. split; [reflexivity|].
    cbn. split; [|reflexivity]. intros _ (msg & a & Hin & Hq1 & Hq2).
    specialize (Hout _ _ Hin).
    assert (Hq : qualifies (JStr i) minAck (Emit msg a) = true)
      by now apply qualifies_identifier.
    congruence.
Qed.

(** C8. A request whose message was sent and whose wait timed out is
    answered 200 with [ok] and [timedOut] true and the name of the last
    known level of the message, the level 1 named server when the
    message carries none. *)
Theorem timeout_is_success (cfg : Config) (tp : Transport) (b : Body.t)
    (before pre post : list Event) (p : Plan) (m : Message.t) :
  authorized cfg b = true ->
  prepare StringToNumber cfg true tp b = Ok (Send p) ->
  sendMessage tp (chatId p) (text p) = Ok m ->
  let w := run init before in
  let h := length (closures w) in
  Fire h ∉ pre ->
  (forall msg a, Emit msg a ∈ pre ->
     qualifies (serializedId (Some m)) (minAck p) (Emit msg a) = false) ->
  send_group StringToNumber Guarded cfg true tp b w (pre ++ Fire h :: post)
  = Some {| status := 200;
            json := SentJson
              {| ok := true; groupId := chatId p;
                 messageId := messageId_of Guarded m;
                 ack := ackStr (lastKnown m); timedOut := true;
                 waitedFor := ackName p; timeoutMs := waitMs p |} |} /\
  (Message.ack m = None -> ackStr (lastKnown m) = JStr "server").
Proof.
  intros Hauth Hp Hsend w h Hfire Hpre. split.
  - rewrite send_group_eq. rewrite Hauth, Hp, Hsend. cbn [negb].
    pose proof (wait_outcome before m (minAck p) (waitMs p)
                  (pre ++ Fire h :: post)) as Hc.
    cbn zeta in Hc. fold w h in Hc.
    cbn [Loop.run fold_left Loop.step] in Hc.
    change (waitForAck m (minAck p) (waitMs p) w)
      with (h, snd (waitForAck m (minAck p) (waitMs p) w)).
    cbn iota. unfold Loop.run. rewrite Hc, outcome_app.
    pose proof (outcome_before_timer h (serializedId (Some m)) (minAck p)
                  (lastKnown m) pre Hfire) as Hout.
    destruct (outcome h _ _ _ pre) as [r|].
    + exfalso. destruct Hout as (_ & msg & Hin & Hq).
      rewrite (Hpre _ _ Hin) in Hq. discriminate.
    + cbn [Trace.outcome]. rewrite Nat.eqb_refl. reflexivity.
  - intros Hnone. unfold lastKnown. rewrite Hnone. reflexivity.
Qed.

End GuardedWaits.

(** * Further properties *)

(** ** Strings of the request *)

Lemma lower_char_idem (c : ascii) :
  Str.lower_char (Str.lower_char c) = Str.lower_char c.
Proof. destruct c as [[] [] [] [] [] [] [] []]; reflexivity. Qed.

Lemma toLowerCase_idem (s : string) :
  Str.toLowerCase (Str.toLowerCase s) = Str.toLowerCase s.
Proof.
  induction s as [|c s IH]; [reflexivity|]. cbn. now rewrite lower_char_idem, IH.
Qed.

Lemma toLowerCase_nonempty (s : string) :
  Str.nonempty (Str.toLowerCase s) = Str.nonempty s.
Proof. now destruct s. Qed.

Lemma trimStart_clean (s : string) :
  match Str.trimStart s with
  | EmptyString => True
  | String c _ => Str.is_space c = false
  end.
Proof.
  induction s as [|c s IH]; cbn; [exact I|].
  destruct (Str.is_space c) eqn:E; [exact IH | exact E].
Qed.

Lemma trimEnd_idem (s : string) : Str.trimEnd (Str.trimEnd s) = Str.trimEnd s.
Proof.
  induction s as [|c s IH]; [reflexivity|]. cbn.
  destruct (Str.trimEnd s) as [|d r] eqn:E.
  - destruct (Str.is_space c) eqn:Hc; [reflexivity|]. cbn. now rewrite Hc.
  - cbn. cbn in IH. now rewrite IH.
Qed.

Lemma trimEnd_head (c : ascii) (s : string) :
  (exists r, Str.trimEnd (String c s) = String c r) \/
  (Str.trimEnd (String c s) = "" /\ Str.is_space c = true).
Proof.
  cbn. destruct (Str.trimEnd s) as [|d r].
  - destruct (Str.is_space c); eauto.
  - eauto.
Qed.

(** [trim] leaves a trimmed string as it is. *)
Lemma trim_idem (s : string) : Str.trim (Str.trim s) = Str.trim s.
Proof.
  unfold Str.trim. pose proof (trimStart_clean s) as Hc.
  destruct (Str.trimStart s) as [|c t]; [reflexivity|].
  destruct (trimEnd_head c t) as [(r & E)|[E Hs]]; [|congruence].
  rewrite E. cbn [Str.trimStart]. rewrite Hc, <- E. apply trimEnd_idem.
Qed.

Lemma trim_blank (s : string) : blank s = true -> Str.trim s = "".
Proof.
  intros H. unfold Str.trim.
  assert (E : Str.trimStart s = "").
  { induction s as [|c s IH]; [reflexivity|]. cbn in H |- *.
    apply andb_prop in H as [-> H]. auto. }
  now rewrite E.
Qed.

(** ** The replies of the handler *)

(** The replies that end a request before the send. *)
Lemma prepare_Reply (StringToNumber : string -> number) (cfg : Config)
    (isReady : bool) (tp : Transport) (b : Body.t) (r : Response) :
  prepare StringToNumber cfg isReady tp b = Ok (Reply r) ->
  (isReady = false /\ r = fail 503 "whatsapp not ready") \/
  (isReady = true /\
   (r = fail 400 "message is required" \/
    r = fail 404 "group not found" \/
    r = fail 400 "groupId or group is required")).
Proof.
  unfold prepare. destruct isReady; cbn [negb].
  2: { intros [= <-]. left. auto. }
  intros H. right. split; [reflexivity|].
  apply bind_Ok in H as (group & _ & H).
  apply bind_Ok in H as (groupId & _ & H).
  apply bind_Ok in H as (t & _ & H).
  destruct (Str.nonempty t); cbn [negb] in H; [|injection H as <-; auto].
  apply bind_Ok in H as (lvl & _ & H).
  apply bind_Ok in H as (n & _ & H).
  apply bind_Ok in H as (target & Htarget & H).
  destruct target as [chatId|r']; [discriminate|]. injection H as <-.
  unfold resolve_chat in Htarget.
  destruct (Str.nonempty groupId); [discriminate|].
  destruct (Str.nonempty group); [|injection Htarget as <-; auto].
  apply bind_Ok in Htarget as (chats & _ & Htarget).
  destruct (find _ _); [discriminate|]. injection Htarget as <-. auto.
Qed.

Lemma field_trim (v : jsval) (s : string) : field v = Ok s -> Str.trim s = s.
Proof.
  unfold field. intros H. apply bind_Ok in H as (s0 & _ & H).
  injection H as <-. apply trim_idem.
Qed.

(** X20. What is handed to the transport is trimmed: the text of a sent
    message is not empty and carries no white space at either end, and
    neither does an explicit group identifier used as the chat. *)
Theorem sent_text_trimmed (StringToNumber : string -> number) (cfg : Config)
    (isReady : bool) (tp : Transport) (b : Body.t) (p : Plan) :
  prepare StringToNumber cfg isReady tp b = Ok (Send p) ->
  text p <> "" /\ Str.trim (text p) = text p /\
  (forall groupId,
     field (Body.groupId b) = Ok groupId -> groupId <> "" ->
     Str.trim (chatId p) = chatId p).
Proof.
  intros H. apply prepare_Send in H as (_ & g & gid & lvl & H).
  destruct H as (_ & Hgid & Ht & Hne & _ & _ & _ & _ & Hres).
  split; [exact Hne|]. split; [now apply (field_trim (Body.message b))|].
  intros groupId Hf Hg. rewrite Hf in Hgid. injection Hgid as <-.
  unfold resolve_chat in Hres. rewrite (nonempty_true _ Hg) in Hres.
  injection Hres as <-. now apply (field_trim (Body.groupId b)).
Qed.

(** X1. A request is answered 401 exactly when its [bot-token] is not the
    string of the secret, whatever the readiness, the transport and the
    rest of the body are. *)
Theorem unauthorized_iff (StringToNumber : string -> number) (rv : revision)
    (cfg : Config) (isReady : bool) (tp : Transport) (b : Body.t)
    (w : World) (tr : list Event) :
  (Body.bot_token b <> JStr (BOT_TOKEN cfg) ->
   send_group StringToNumber rv cfg isReady tp b w tr
   = Some (fail 401 "unauthorized")) /\
  (forall r,
     send_group StringToNumber rv cfg isReady tp b w tr = Some r ->
     status r = 401%Z -> Body.bot_token b <> JStr (BOT_TOKEN cfg)).
Proof.
  assert (Hauth : authorized cfg b = true <-> Body.bot_token b = JStr (BOT_TOKEN cfg)).
  { unfold authorized, Js.seq_str. destruct (Body.bot_token b);
      try (split; [discriminate | discriminate]).
    rewrite String.eqb_eq. split; congruence. }
  split.
  - intros Hne. rewrite send_group_eq.
    destruct (authorized cfg b); [|reflexivity].
    exfalso. apply Hne, Hauth. reflexivity.
  - intros r Hr Hs Heq. apply Hauth in Heq. rewrite send_group_eq in Hr.
    rewrite Heq in Hr. cbn [negb] in Hr.
    destruct (prepare _ _ _ _ _) as [[r'|p]|] eqn:Hp.
    + injection Hr as <-.
      apply prepare_Reply in Hp as [[_ E]|[_ [E|[E|E]]]]; subst r';
        discriminate.
    + destruct (sendMessage _ _ _); [|injection Hr as <-; discriminate].
      destruct (waitForAck _ _ _ _) as [h w1].
      destruct (_ !! h) as [c|]; [|discriminate].
      destruct (promise c); [|discriminate]. injection Hr as <-. discriminate.
    + injection Hr as <-. discriminate.
Qed.

(** X2. A reply with the status 200 is only sent for an authorized request
    received while ready, after the transport has accepted the message; it
    says [ok] and names the chat the message was sent to, the level waited
    for and the time waited. *)
Theorem ok_only_after_send (StringToNumber : string -> number) (rv : revision)
    (cfg : Config) (isReady : bool) (tp : Transport) (b : Body.t)
    (w : World) (tr : list Event) (r : Response) :
  send_group StringToNumber rv cfg isReady tp b w tr = Some r ->
  status r = 200%Z ->
  authorized cfg b = true /\ isReady = true /\
  exists p m res,
    prepare StringToNumber cfg isReady tp b = Ok (Send p) /\
    sendMessage tp (chatId p) (text p) = Ok m /\
    json r = SentJson
      {| ok := true; groupId := chatId p; messageId := messageId_of rv m;
         ack := ackStr (Resolution.ack res);
         timedOut := Resolution.timedOut res;
         waitedFor := ackName p; timeoutMs := waitMs p |}.
Proof.
  rewrite send_group_eq. intros Hr Hs.
  destruct (authorized cfg b); cbn [negb] in Hr;
    [|injection Hr as <-; discriminate].
  split; [reflexivity|].
  destruct (prepare _ _ _ _ _) as [[r'|p]|] eqn:Hp.
  - injection Hr as <-.
    apply prepare_Reply in Hp as [[_ E]|[_ [E|[E|E]]]]; subst r';
      discriminate.
  - pose proof (prepare_Send _ _ _ _ _ _ Hp) as (Hready & _).
    split; [exact Hready|].
    destruct (sendMessage _ _ _) as [m|] eqn:Hm;
      [|injection Hr as <-; discriminate].
    destruct (waitForAck _ _ _ _) as [h w1].
    destruct (_ !! h) as [c|]; [|discriminate].
    destruct (promise c) as [res|]; [|discriminate]. injection Hr as <-.
    exists p, m, res. auto.
  - injection Hr as <-. discriminate.
Qed.

(** X3. A group, group identifier or message that is a parsed object with
    a [toString] key of its own cannot be converted to a string: while the
    client is ready an authorized request with such a field is answered 500,
    even when its message is empty; while the client is not ready it is
    answered 503, as any authorized request is. *)
Theorem unconvertible_field_500 (StringToNumber : string -> number)
    (rv : revision) (cfg : Config) (isReady : bool) (tp : Transport)
    (b : Body.t) (w : World) (tr : list Event)
    (props : list (string * jsval)) :
  authorized cfg b = true ->
  Js.has_own "toString" props = true ->
  Body.group b = JObj props \/ Body.groupId b = JObj props
  \/ Body.message b = JObj props ->
  send_group StringToNumber rv cfg isReady tp b w tr
  = Some (if isReady then fail 500 "send failed"
          else fail 503 "whatsapp not ready").
Proof.
  intros Hauth Hown Hfield.
  assert (Hthrow : field (JObj props) = Throw).
  { unfold field, Js.or. cbn. now rewrite Hown. }
  rewrite send_group_eq. unfold prepare. rewrite Hauth. cbn [negb].
  destruct isReady; cbn [negb]; [|reflexivity].
  destruct Hfield as [H|[H|H]].
  - now rewrite H, Hthrow.
  - destruct (field (Body.group b)); [|reflexivity]. cbn [bind].
    now rewrite H, Hthrow.
  - destruct (field (Body.group b)); [|reflexivity]. cbn [bind].
    destruct (field (Body.groupId b)); [|reflexivity]. cbn [bind].
    now rewrite H, Hthrow.
Qed.

Lemma field_falsy (v : jsval) : Js.truthy v = false -> field v = Ok "".
Proof. intros H. unfold field, Js.or. now rewrite H. Qed.

Lemma field_string (s : string) : field (JStr s) = Ok (Str.trim s).
Proof. unfold field, Js.or. now destruct s. Qed.

(** X4. A message that is falsy ([null], [false], [0], the empty string
    or absent) or a string of white space counts as missing: while ready,
    with group fields that convert, the request is answered 400. *)
Theorem falsy_message_400 (StringToNumber : string -> number)
    (rv : revision) (cfg : Config) (tp : Transport) (b : Body.t)
    (w : World) (tr : list Event) (group groupId : string) :
  authorized cfg b = true ->
  field (Body.group b) = Ok group ->
  field (Body.groupId b) = Ok groupId ->
  Js.truthy (Body.message b) = false
  \/ (exists s, Body.message b = JStr s /\ blank s = true) ->
  send_group StringToNumber rv cfg true tp b w tr
  = Some (fail 400 "message is required").
Proof.
  intros Hauth Hg Hgid Hm.
  assert (Ht : field (Body.message b) = Ok "").
  { destruct Hm as [Hm|(s & -> & Hs)]; [now apply field_falsy|].
    now rewrite field_string, trim_blank. }
  rewrite send_group_eq. unfold prepare. rewrite Hauth. cbn [negb].
  now rewrite Hg, Hgid, Ht.
Qed.

(** ** What the name of a group matches *)

Lemma named_lower (g g' : string) (c : Chat.t) :
  Str.toLowerCase g = Str.toLowerCase g' -> named g c = named g' c.
Proof. intros H. unfold named. now rewrite H. Qed.

Lemma find_ext {A} (f g : A -> bool) (l : list A) :
  (forall x, f x = g x) -> find f l = find g l.
Proof.
  intros H. induction l as [|x l IH]; [reflexivity|]. cbn.
  rewrite H, IH. reflexivity.
Qed.

(** X5. The name of a group is matched up to the case of its letters and
    the white space around it: two requests whose [group] strings are equal
    after trimming and lowercasing, and equal otherwise, are handled in the
    same way. *)
Theorem group_name_normalised (StringToNumber : string -> number)
    (cfg : Config) (isReady : bool) (tp : Transport) (g g' : string)
    (token groupId message ack timeoutMs : jsval) :
  Str.toLowerCase (Str.trim g) = Str.toLowerCase (Str.trim g') ->
  prepare StringToNumber cfg isReady tp
    (Body.mk token (JStr g) groupId message ack timeoutMs)
  = prepare StringToNumber cfg isReady tp
      (Body.mk token (JStr g') groupId message ack timeoutMs).
Proof.
  intros H. unfold prepare. cbn [Body.group Body.groupId Body.message Body.ack
    Body.timeoutMs]. rewrite !field_string. cbn [bind].
  destruct isReady; cbn [negb]; [|reflexivity].
  destruct (field groupId) as [gid|]; [|reflexivity]. cbn [bind].
  destruct (field message) as [t|]; [|reflexivity]. cbn [bind].
  destruct (Str.nonempty t); cbn [negb]; [|reflexivity].
  destruct (parseAckLevel _ _) as [lvl|]; [|reflexivity]. cbn [bind].
  destruct (ToNumber _ _) as [n|]; [|reflexivity]. cbn [bind].
  assert (Hres : resolve_chat tp gid (Str.trim g)
                 = resolve_chat tp gid (Str.trim g')).
  { unfold resolve_chat. destruct (Str.nonempty gid); [reflexivity|].
    assert (Hn : Str.nonempty (Str.trim g) = Str.nonempty (Str.trim g'))
      by now rewrite <- toLowerCase_nonempty, H, toLowerCase_nonempty.
    rewrite Hn. destruct (Str.nonempty (Str.trim g')); [|reflexivity].
    destruct (getChats tp) as [chats|]; [|reflexivity]. cbn [bind].
    rewrite (find_ext (named (Str.trim g)) (named (Str.trim g')));
      [reflexivity|].
    intros c. now apply named_lower. }
  now rewrite Hres.
Qed.

(** X6. A chat found by name is a group of the conversation list whose
    name equals the requested one up to case: the name never resolves to a
    chat that is not a group or not listed. *)
Theorem name_resolves_to_listed_group (tp : Transport) (group chatId : string) :
  resolve_chat tp "" group = Ok (Found chatId) ->
  exists chats c,
    getChats tp = Ok chats /\ c ∈ chats /\ Chat.isGroup c = true /\
    Chat.id c = chatId /\
    Str.toLowerCase (default "" (Chat.name c)) = Str.toLowerCase group.
Proof.
  unfold resolve_chat. cbn [Str.nonempty].
  destruct (Str.nonempty group); [|discriminate].
  intros H. apply bind_Ok in H as (chats & Hchats & H).
  destruct (find (named group) chats) as [c|] eqn:Hf; [|discriminate].
  injection H as <-. apply find_some in Hf as [Hin Hn].
  unfold named in Hn. apply andb_prop in Hn as [Hg Hn].
  apply String.eqb_eq in Hn.
  exists chats, c. split; [exact Hchats|]. split; [now apply list_elem_of_In|].
  split; [exact Hg|]. split; [reflexivity|]. now destruct (Chat.name c).
Qed.

(** X7. The earlier [server.js] never targets a chat that is not a group:
    the chat it resolves, by identifier or by name, is a group the
    transport has returned. *)
Theorem legacy_targets_groups (tp : Transport)
    (groupIdReq groupName chatId : string) :
  Legacy.resolve_chat tp groupIdReq groupName = Ok (Found chatId) ->
  exists c,
    Chat.isGroup c = true /\ Chat.id c = chatId /\
    ((groupIdReq <> "" /\ getChatById tp groupIdReq = Ok (Some c)) \/
     (groupIdReq = "" /\ exists chats, getChats tp = Ok chats /\ c ∈ chats)).
Proof.
  unfold Legacy.resolve_chat. destruct groupIdReq as [|a gid]; cbn [Str.nonempty].
  - intros H. apply bind_Ok in H as (chats & Hchats & H).
    destruct (find (named groupName) chats) as [c|] eqn:Hf; [|discriminate].
    injection H as <-. apply find_some in Hf as [Hin Hn].
    unfold named in Hn. apply andb_prop in Hn as [Hg _].
    exists c. split; [exact Hg|]. split; [reflexivity|].
    right. split; [reflexivity|].
    exists chats. split; [exact Hchats | now apply list_elem_of_In].
  - destruct (getChatById tp (String a gid)) as [[c|]|] eqn:Hc;
      try discriminate.
    destruct (Chat.isGroup c) eqn:Hg; [|discriminate].
    intros [= <-]. exists c. split; [exact Hg|]. split; [reflexivity|].
    left. split; [discriminate | reflexivity].
Qed.

(** ** Ack levels, again *)

(** X8. The requested level is read up to the case of its letters. *)
Theorem parseAckLevel_case (s fallback : string) :
  parseAckLevel (JStr s) fallback
  = parseAckLevel (JStr (Str.toLowerCase s)) fallback.
Proof.
  unfold parseAckLevel, Js.or. cbn [Js.truthy].
  rewrite toLowerCase_nonempty. destruct (Str.nonempty s); [|reflexivity].
  cbn [Js.ToString bind]. now rewrite toLowerCase_idem.
Qed.

Lemma AckMap_number (k : string) (n : number) :
  Obj.get AckMap k = JNum n ->
  In (k, n) [("server", Fin 1); ("device", Fin 2); ("read", Fin 3);
             ("played", Fin 4)].
Proof.
  unfold Obj.get, AckMap. cbn [Obj.own].
  destruct (String.eqb_spec "server" k) as [<-|_];
    [intros [= <-]; cbn; auto|].
  destruct (String.eqb_spec "device" k) as [<-|_];
    [intros [= <-]; cbn; auto|].
  destruct (String.eqb_spec "read" k) as [<-|_];
    [intros [= <-]; cbn; auto|].
  destruct (String.eqb_spec "played" k) as [<-|_];
    [intros [= <-]; cbn; auto 6|].
  destruct (existsb _ _); discriminate.
Qed.

(** X9. A parsed level whose code is a number is one of the four levels,
    and the name the reply gives to that code is the name of the level:
    the reply to a wait that resolves at exactly the requested level names
    the same level in [ack] and in [waitedFor]. *)
Theorem level_name_round_trip (v : jsval) (fallback : string)
    (lvl : AckLevel) (n : number) :
  parseAckLevel v fallback = Ok lvl -> code lvl = JNum n ->
  In (name lvl, n) [("server", Fin 1); ("device", Fin 2); ("read", Fin 3);
                    ("played", Fin 4)] /\
  ackStr n = JStr (name lvl).
Proof.
  unfold parseAckLevel. intros H Hcode.
  apply bind_Ok in H as (k0 & _ & H).
  assert (Hin : In (name lvl, n)
                  [("server", Fin 1); ("device", Fin 2); ("read", Fin 3);
                   ("played", Fin 4)]).
  { destruct (Js.truthy _); injection H as <-; cbn [name code] in *.
    - now apply AckMap_number.
    - injection Hcode as <-. now left. }
  split; [exact Hin|].
  cbn in Hin. destruct Hin as [E|[E|[E|[E|[]]]]];
    injection E as <- <-; reflexivity.
Qed.

Lemma env_or_nonempty (env : gmap string string) (k d : string) :
  d <> "" -> Str.nonempty (env_or env k d) = true.
Proof.
  intros Hd. unfold env_or. destruct (env !! k) as [s|].
  - destruct (Str.nonempty s) eqn:E; [exact E | now apply nonempty_true].
  - now apply nonempty_true.
Qed.

(** X10. A request without a truthy [ack] waits for the level the
    environment names in [ACK_LEVEL_DEFAULT], read up to case, and for the
    level device when the variable is unset or empty. *)
Theorem absent_ack_default (StringToNumber : string -> number) (rv : revision)
    (env : gmap string string) (s : jsval) :
  Js.truthy s = false ->
  parseAckLevel s (ACK_LEVEL_DEFAULT (load StringToNumber rv env))
  = parseAckLevel (JStr (env_or env "ACK_LEVEL_DEFAULT" "device")) "device" /\
  (missing env "ACK_LEVEL_DEFAULT" ->
   parseAckLevel s (ACK_LEVEL_DEFAULT (load StringToNumber rv env))
   = Ok {| name := "device"; code := JNum (Fin 2) |}).
Proof.
  intros Hs. cbn [ACK_LEVEL_DEFAULT load].
  assert (Hd : Str.nonempty (env_or env "ACK_LEVEL_DEFAULT" "device") = true)
    by (apply env_or_nonempty; discriminate).
  assert (E : parseAckLevel s
                (Str.toLowerCase (env_or env "ACK_LEVEL_DEFAULT" "device"))
              = parseAckLevel
                  (JStr (env_or env "ACK_LEVEL_DEFAULT" "device")) "device").
  { unfold parseAckLevel, Js.or. rewrite Hs. cbn [Js.truthy Js.ToString bind].
    rewrite Hd. cbn [Js.ToString bind]. now rewrite toLowerCase_idem. }
  split; [exact E|].
  intros Hm. rewrite E. unfold env_or.
  destruct Hm as [-> | ->]; reflexivity.
Qed.

(** ** Backups and readiness *)

(** X11. Once startup has gone on to serve, the interval handed to the
    session store is at least a minute, and the health endpoint reports the
    periodic backup exactly when [WA_BACKUP_MS] is not zero. The backup is
    scheduled exactly when [WA_BACKUP_MS] is not zero and [fs.mkdirSync] has
    not thrown: when it throws, nothing is scheduled while the health
    endpoint still reports the backup. *)
Theorem backup_after_startup (StringToNumber : string -> number)
    (rv : revision) (env : gmap string string) (cfg : Config)
    (isReady : bool) (mkdirSync : exn unit) :
  startup StringToNumber rv env = Serve cfg ->
  Num.ge (backupSyncIntervalMs cfg) (Fin 60000) = true /\
  (backup_scheduled cfg mkdirSync = true
   <-> BACKUP_MS cfg <> Fin 0 /\ mkdirSync = Ok tt) /\
  (Health.backup (healthz cfg isReady) = Health.Disabled
   <-> BACKUP_MS cfg = Fin 0) /\
  (BACKUP_MS cfg <> Fin 0 -> mkdirSync = Throw ->
   backup_scheduled cfg mkdirSync = false /\
   Health.backup (healthz cfg isReady)
   = Health.Every (BACKUP_MS cfg) (BACKUP_DIR cfg)).
Proof.
  unfold startup. destruct (_ || _); [discriminate|].
  destruct (Num.isNaN _ || Num.lt _ _) eqn:E1; [discriminate|].
  destruct (negb _ && Num.lt _ _) eqn:E2; [discriminate|].
  intros [= <-]. unfold backupSyncIntervalMs, backup_scheduled, healthz.
  cbn [Health.backup]. revert E1 E2.
  generalize (BACKUP_DIR (load StringToNumber rv env)).
  generalize (BACKUP_MS (load StringToNumber rv env)). intros n dir E1 E2.
  assert (Hge : n <> Fin 0 -> Num.ge n (Fin 60000) = true).
  { destruct n as [|[]|z]; cbn in E1, E2 |- *; try discriminate; auto.
    intros Hz. destruct (Z.eqb_spec z 0) as [->|Hne]; [congruence|].
    cbn in E2. destruct (Z.ltb_spec z 60000); [discriminate|].
    unfold Num.ge. cbn. destruct (Z.leb_spec 60000 z); [reflexivity | lia]. }
  assert (H0 : n = Fin 0 -> Num.ge n (Fin 60000) = false).
  { intros ->. reflexivity. }
  destruct (Num.seq n (Fin 0)) eqn:Es.
  - assert (Hn : n = Fin 0).
    { destruct n as [|[]|z]; cbn in Es; try discriminate.
      apply Z.eqb_eq in Es. now subst. }
    rewrite (H0 Hn). repeat split; try discriminate; try congruence.
    intros [H _]. congruence.
  - assert (Hn : n <> Fin 0).
    { intros ->. discriminate Es. }
    rewrite (Hge Hn). split; [reflexivity|]. split; [|split].
    + destruct mkdirSync as [[]|]; split; try discriminate; auto.
      intros [_ H]. discriminate H.
    + split; [discriminate | congruence].
    + intros _ ->. split; reflexivity.
Qed.

(** X12. The client is ready exactly when it has emitted [ready] and
    neither [disconnected] nor [auth_failure] since. *)
Theorem readiness_last_event (evs : list Lifecycle) :
  readiness evs = true <->
  exists before after,
    evs = (before ++ Ready :: after)%list /\
    Forall (fun e => e <> Disconnected /\ e <> AuthFailure) after.
Proof.
  unfold readiness. induction evs as [|e evs IH] using rev_ind.
  - cbn. split; [discriminate|]. intros (before & after & H & _).
    now destruct before.
  - rewrite fold_left_app. cbn [fold_left]. split.
    + intros H.
      assert (Hkeep : fold_left lifecycle evs false = true ->
        exists before after,
          (evs ++ [e])%list = (before ++ Ready :: after)%list /\
          Forall (fun e => e <> Disconnected /\ e <> AuthFailure) after
          \/ e = Disconnected \/ e = AuthFailure).
      { intros Hp. apply IH in Hp as (before & after & -> & Hall).
        exists before, (after ++ [e])%list.
        destruct e; auto; left;
          (split; [now rewrite <- app_assoc|]);
          (apply Forall_app; split; [exact Hall|]);
          (constructor; [split; discriminate | constructor]). }
      destruct e; cbn in H; try discriminate;
        try (destruct (Hkeep H) as (before & after & [Hk|[Hk|Hk]]);
             [eauto | discriminate | discriminate]).
      exists evs, []. split; [reflexivity | constructor].
    + intros (before & after & H & Hall).
      destruct after as [|a after _] using rev_ind.
      * apply app_inj_tail in H as [_ ->]. reflexivity.
      * rewrite app_comm_cons, app_assoc in H.
        apply app_inj_tail in H as [-> ->].
        apply Forall_app in Hall as [Hall Ha].
        apply Forall_inv in Ha as [Ha1 Ha2].
        assert (Hprev : fold_left lifecycle (before ++ Ready :: after) false
                        = true) by (apply IH; eauto).
        destruct a; cbn; congruence.
Qed.

(** ** The waits, again *)

Section MoreWaitProperties.

Variable StringToNumber : string -> number.
Variable rv : revision.

Local Abbreviation onAck := (onAck StringToNumber rv).
Local Abbreviation call_listeners := (call_listeners StringToNumber rv).
Local Abbreviation step := (step StringToNumber rv).
Local Abbreviation run := (run StringToNumber rv).

(** X13. No listener leaks: in every world the loop reaches, the
    [message_ack] listeners of the client are, without repetition, the
    listeners of the waits that have not settled. *)
Theorem listeners_are_open_waits (tr : list Event) (h : nat) :
  NoDup (listeners (run init tr)) /\
  (h ∈ listeners (run init tr) <->
   exists c, closures (run init tr) !! h = Some c /\ settled c = false).
Proof.
  pose proof (consistent_run StringToNumber rv tr init consistent_init)
    as (Hnd & Hl & Hc).
  split; [exact Hnd|]. split; [apply Hl|].
  intros (c & Hh & Hs). specialize (Hc _ _ Hh). rewrite Hs in Hc. apply Hc.
Qed.

(** *** Timers *)

Lemma call_listeners_timers (snapshot : list nat) (msg : option Message.t)
    (ack : number) (w : World) :
  timers (call_listeners snapshot msg ack w) = timers w.
Proof.
  revert w. induction snapshot as [|j rest IH]; intros w; [reflexivity|].
  cbn. destruct (onAck j msg ack w) as [w'|] eqn:Hw; [|reflexivity].
  rewrite IH. apply onAck_cases in Hw as [->|[_ ->]]; reflexivity.
Qed.

Lemma step_pending (h : nat) (w : World) (e : Event) :
  e <> Fire h -> pending h w = true -> pending h (step w e) = true.
Proof.
  intros Hne Hp. destruct e as [m minAck t|msg ack|j]; cbn.
  - unfold pending in *. cbn. now rewrite existsb_app, Hp.
  - unfold pending in *. unfold Loop.emit. now rewrite call_listeners_timers.
  - assert (Hj : h <> j) by congruence.
    unfold fire. destruct (pending j w); [|exact Hp].
    unfold onTimeout. change (closures (disarm j w)) with (closures w).
    destruct (closures w !! j) as [c|]; [destruct (settled c)|];
      try (rewrite pending_disarm; [exact Hp | exact Hj]).
    change (pending h (disarm j w) = true).
    rewrite pending_disarm; [exact Hp | exact Hj].
Qed.

(** X14. The timer of a wait is not cleared when the wait resolves on an
    ack: it stays armed until it fires, whatever the events before are. *)
Theorem timer_armed_until_fired (before : list Event) (m : Message.t)
    (minAck : jsval) (t : number) (tr : list Event) :
  let w := run init before in
  let h := length (closures w) in
  Fire h ∉ tr ->
  pending h (run w (Call m minAck t :: tr)) = true.
Proof.
  intros w h Hfire. cbn [Loop.run fold_left Loop.step].
  assert (H0 : pending h (snd (waitForAck m minAck t w)) = true).
  { unfold pending. cbn. rewrite existsb_app. cbn.
    now rewrite Nat.eqb_refl, orb_true_r. }
  revert H0 Hfire. generalize (snd (waitForAck m minAck t w)).
  induction tr as [|e tr IH]; intros w1 H1 Hfire; [exact H1|].
  apply not_elem_of_cons in Hfire as [Hne Hfire]. cbn.
  apply IH; [|exact Hfire]. apply step_pending; [congruence | exact H1].
Qed.

(** *** What a wait resolves with *)

Lemma onAck_resolves (h : nat) (msg : option Message.t) (ack : number)
    (w w' : World) :
  onAck h msg ack w = Ok w' ->
  w' = w \/
  exists c, closures w !! h = Some c /\
    reaches StringToNumber ack (minAckCode c) = Ok true /\
    w' = resolve h (Resolution.mk ack false) (cleanup h w).
Proof.
  unfold Loop.onAck. destruct (closures w !! h) as [c|] eqn:Hc.
  2: { intros [= <-]. now left. }
  destruct rv.
  - destruct (_ || _); [intros [= <-]; now left|].
    destruct (reaches _ _ _) as [[]|] eqn:Hr; intros [= <-]; eauto.
  - destruct (strict_eq _ _); [|intros [= <-]; now left].
    destruct (reaches _ _ _) as [[]|] eqn:Hr; cbn; intros [= <-]; eauto.
Qed.

Lemma justified_settle (h : nat) (c : Closure) (r : Resolution.t) (w : World) :
  all_justified StringToNumber w -> closures w !! h = Some c ->
  justified StringToNumber c r ->
  all_justified StringToNumber (resolve h r (cleanup h w)).
Proof.
  intros Hw Hc Hr j cj r'. rewrite lookup_settled.
  destruct (decide (h = j)) as [<-|Hne]; [|apply Hw].
  rewrite Hc. intros [= <-]. cbn [resolved record settle].
  intros Hin. apply elem_of_app in Hin as [Hin|Hin].
  - exact (Hw _ _ _ Hc Hin).
  - apply list_elem_of_singleton in Hin as ->. exact Hr.
Qed.

Lemma justified_call_listeners (snapshot : list nat) (msg : option Message.t)
    (ack : number) (w : World) :
  all_justified StringToNumber w ->
  all_justified StringToNumber (call_listeners snapshot msg ack w).
Proof.
  revert w. induction snapshot as [|j rest IH]; intros w Hw; [exact Hw|].
  cbn. destruct (onAck j msg ack w) as [w'|] eqn:Hw'; [|exact Hw].
  apply IH. apply onAck_resolves in Hw' as [->|(c & Hc & Hr & ->)];
    [exact Hw|].
  eapply justified_settle; eauto.
Qed.

Lemma justified_step (w : World) (e : Event) :
  all_justified StringToNumber w -> all_justified StringToNumber (step w e).
Proof.
  intros Hw. destruct e as [m minAck t|msg ack|j]; cbn.
  - intros h c r Hc. cbn in Hc.
    apply lookup_snoc_Some in Hc as [[_ Hc]|[_ <-]]; [exact (Hw _ _ _ Hc)|].
    cbn. intros Hin. now apply elem_of_nil in Hin.
  - now apply justified_call_listeners.
  - unfold fire. destruct (pending j w); [|exact Hw].
    assert (Hd : all_justified StringToNumber (disarm j w)) by exact Hw.
    unfold onTimeout. destruct (closures (disarm j w) !! j) as [c|] eqn:Hc;
      [|exact Hd].
    destruct (settled c); [exact Hd|].
    eapply justified_settle; eauto. reflexivity.
Qed.

Lemma justified_init : all_justified StringToNumber init.
Proof. intros h c r Hc. discriminate. Qed.

Lemma justified_run (tr : list Event) (w : World) :
  all_justified StringToNumber w -> all_justified StringToNumber (run w tr).
Proof.
  revert w. induction tr as [|e tr IH]; intros w Hw; [exact Hw|].
  cbn. apply IH, justified_step, Hw.
Qed.

(** X15. A wait never reports an ack below the minimum: whatever the loop
    has run, every resolution of a wait is either a timeout that reports the
    last known level of its message, or an ack whose level reaches the
    minimum of the wait. *)
Theorem resolutions_justified (tr : list Event) (h : nat) (c : Closure)
    (r : Resolution.t) :
  closures (run init tr) !! h = Some c -> r ∈ resolved c ->
  if Resolution.timedOut r
  then Resolution.ack r = lastKnown (message c)
  else reaches StringToNumber (Resolution.ack r) (minAckCode c) = Ok true.
Proof.
  intros Hc Hin. exact (justified_run tr init justified_init _ _ _ Hc Hin).
Qed.

End MoreWaitProperties.

(** ** The handler and its wait *)

Section HandlerAndWait.

Variable StringToNumber : string -> number.

(** Once the timer of a wait has fired the promise of the wait holds a
    value. *)
Lemma promise_by_timer (rv : revision) (h : nat) (tr : list Event)
    (w : World) (c : Closure) :
  consistent w -> closures w !! h = Some c -> Fire h ∈ tr ->
  exists c' r,
    closures (run StringToNumber rv w tr) !! h = Some c' /\
    promise c' = Some r.
Proof.
  intros Hw Hc Hin. apply list_elem_of_split in Hin as (tr1 & tr2 & ->).
  rewrite run_app. cbn [run fold_left step].
  change (fold_left (step StringToNumber rv) tr2 ?x)
    with (run StringToNumber rv x tr2).
  set (w1 := run StringToNumber rv w tr1).
  assert (Hw1 : consistent w1) by now apply consistent_run.
  destruct (run_keeps StringToNumber rv h tr1 _ _ Hc) as (c1 & Hc1 & _).
  fold w1 in Hc1.
  assert (H2 : exists c2, closures (fire h w1) !! h = Some c2
                          /\ settled c2 = true).
  { destruct (settled c1) eqn:Hs1.
    - exists c1. split; [|exact Hs1].
      now rewrite (fire_settled h w1 c1 Hc1 Hs1).
    - rewrite (fire_unsettled h w1 c1 Hw1 Hc1 Hs1). eauto. }
  destruct H2 as (c2 & Hc2 & Hs2).
  assert (Hw2 : consistent (fire h w1)) by now apply consistent_fire.
  exists c2. pose proof Hw2 as (_ & _ & Hinv). specialize (Hinv _ _ Hc2).
  rewrite Hs2 in Hinv. unfold promise.
  destruct (resolved c2) as [|r l]; [discriminate|]. exists r.
  split; [|reflexivity]. now apply run_settled.
Qed.

(** X16. Every request whose message was sent is answered by the time its
    timer has fired, in both revisions, and the answer has the status
    200. *)
Theorem answered_by_timer (rv : revision) (cfg : Config) (isReady : bool)
    (tp : Transport) (b : Body.t) (before tr : list Event) (p : Plan)
    (m : Message.t) :
  authorized cfg b = true ->
  prepare StringToNumber cfg isReady tp b = Ok (Send p) ->
  sendMessage tp (chatId p) (text p) = Ok m ->
  let w := run StringToNumber rv init before in
  Fire (length (closures w)) ∈ tr ->
  exists r,
    send_group StringToNumber rv cfg isReady tp b w tr = Some r /\
    status r = 200%Z.
Proof.
  intros Hauth Hp Hsend w Hfire. rewrite send_group_eq.
  rewrite Hauth, Hp, Hsend. cbn [negb].
  change (waitForAck m (minAck p) (waitMs p) w)
    with (length (closures w), snd (waitForAck m (minAck p) (waitMs p) w)).
  cbn iota.
  assert (Hw : consistent w) by apply consistent_run, consistent_init.
  destruct (promise_by_timer rv (length (closures w)) tr
              (snd (waitForAck m (minAck p) (waitMs p) w)) _
              (consistent_waitForAck m (minAck p) (waitMs p) w Hw)
              (waitForAck_closure m (minAck p) (waitMs p) w) Hfire)
    as (c & r & Hc & Hr).
  rewrite Hc, Hr. eexists. split; reflexivity.
Qed.

(** X17. In [part_002] the answer to a request whose message was sent is
    the reply built from the outcome of the events that follow the send: no
    answer while neither a qualifying event nor the timer has come, and
    then the reply to the first of them. *)
Theorem reply_is_outcome (cfg : Config) (isReady : bool) (tp : Transport)
    (b : Body.t) (before tr : list Event) (p : Plan) (m : Message.t) :
  authorized cfg b = true ->
  prepare StringToNumber cfg isReady tp b = Ok (Send p) ->
  sendMessage tp (chatId p) (text p) = Ok m ->
  let w := run StringToNumber Guarded init before in
  send_group StringToNumber Guarded cfg isReady tp b w tr
  = respond Guarded p m
      <$> outcome StringToNumber (length (closures w))
            (serializedId (Some m)) (minAck p) (lastKnown m) tr.
Proof.
  intros Hauth Hp Hsend w. rewrite send_group_eq.
  rewrite Hauth, Hp, Hsend. cbn [negb].
  change (waitForAck m (minAck p) (waitMs p) w)
    with (length (closures w), snd (waitForAck m (minAck p) (waitMs p) w)).
  cbn iota.
  pose proof (wait_outcome StringToNumber before m (minAck p) (waitMs p) tr)
    as Hc.
  cbn zeta in Hc. fold w in Hc. cbn [run fold_left step] in Hc.
  unfold run. rewrite Hc.
  now destruct (outcome _ _ _ _ _ _).
Qed.

(** *** The two revisions *)

Lemma onAck_agree (h : nat) (msg : option Message.t) (ack : number)
    (w : World) :
  tidy StringToNumber w ->
  onAck StringToNumber Guarded h msg ack w
  = onAck StringToNumber Compact h msg ack w.
Proof.
  intros Hw. unfold onAck. destruct (closures w !! h) as [c|] eqn:Hc;
    [|reflexivity].
  destruct (Hw _ _ Hc) as ((i & Hi & Hne) & (n & Hn)).
  unfold reaches. rewrite Hn, Hi. cbn [bind].
  destruct (strict_eq (serializedId msg) (JStr i)) eqn:E.
  - apply strict_eq_eq in E. rewrite E. cbn [Js.truthy].
    rewrite (nonempty_true _ Hne). cbn [negb orb].
    now destruct (Num.ge ack n).
  - now rewrite orb_true_r.
Qed.

Lemma tidy_settle (h : nat) (r : Resolution.t) (w : World) :
  tidy StringToNumber w -> tidy StringToNumber (resolve h r (cleanup h w)).
Proof.
  intros Hw j c. rewrite lookup_settled.
  destruct (decide (h = j)) as [<-|_]; [|apply Hw].
  destruct (closures w !! h) as [c0|] eqn:Hc; [|discriminate].
  intros [= <-]. exact (Hw _ _ Hc).
Qed.

Lemma call_listeners_agree (snapshot : list nat) (msg : option Message.t)
    (ack : number) (w : World) :
  tidy StringToNumber w ->
  call_listeners StringToNumber Guarded snapshot msg ack w
  = call_listeners StringToNumber Compact snapshot msg ack w
  /\ tidy StringToNumber
       (call_listeners StringToNumber Guarded snapshot msg ack w).
Proof.
  revert w. induction snapshot as [|j rest IH]; intros w Hw; [now split|].
  cbn. rewrite <- (onAck_agree j msg ack w Hw).
  destruct (onAck StringToNumber Guarded j msg ack w) as [w'|] eqn:Hw';
    [|now split].
  apply IH. apply onAck_cases in Hw' as [->|[_ ->]]; [exact Hw|].
  now apply tidy_settle.
Qed.

Lemma step_agree (w : World) (e : Event) :
  tidy StringToNumber w -> plain StringToNumber [e] ->
  step StringToNumber Guarded w e = step StringToNumber Compact w e
  /\ tidy StringToNumber (step StringToNumber Guarded w e).
Proof.
  intros Hw He. destruct e as [m minAck t|msg ack|j]; cbn.
  - split; [reflexivity|]. intros h c Hc. cbn in Hc.
    apply lookup_snoc_Some in Hc as [[_ Hc]|[_ <-]]; [exact (Hw _ _ Hc)|].
    destruct (He m minAck t) as [Hid Hconv];
      [now apply list_elem_of_singleton|]. split; [exact Hid | exact Hconv].
  - now apply call_listeners_agree.
  - split; [reflexivity|]. unfold fire. destruct (pending j w); [|exact Hw].
    assert (Hd : tidy StringToNumber (disarm j w)) by exact Hw.
    unfold onTimeout. destruct (closures (disarm j w) !! j) as [c|];
      [|exact Hd].
    destruct (settled c); [exact Hd|]. now apply tidy_settle.
Qed.

(** X18. The rewrite of [part_000] keeps the behaviour of [part_002]: as
    long as every wait is for a message with a non-empty identifier and a
    level that converts to a number, the two revisions take the event loop
    through the same worlds. *)
Theorem revisions_agree (tr : list Event) :
  plain StringToNumber tr ->
  run StringToNumber Guarded init tr = run StringToNumber Compact init tr.
Proof.
  assert (Hinit : tidy StringToNumber init) by (intros h c Hc; discriminate).
  revert Hinit. unfold run. generalize init.
  induction tr as [|e tr IH]; intros w Hw Hplain; [reflexivity|].
  cbn [fold_left].
  destruct (step_agree w e Hw) as [Heq Htidy].
  { intros m minAck t Hin. apply list_elem_of_singleton in Hin.
    apply (Hplain m minAck t). rewrite Hin. apply elem_of_cons. now left. }
  rewrite <- Heq. apply IH; [exact Htidy|].
  intros m minAck t Hin. apply (Hplain m minAck t). apply elem_of_cons.
  now right.
Qed.

End HandlerAndWait.

(** ** The ack wait of the earlier [server.js] *)

Section LegacyWaitProperties.

Variable sentId : string.

Local Abbreviation lstep := (LegacyWait.step sentId).

Lemma legacy_run_fix (tr : list LegacyWait.Event) (s : LegacyWait.State) :
  (forall e, e ∈ tr -> lstep s e = s) -> fold_left lstep tr s = s.
Proof.
  induction tr as [|e tr IH]; intros H; [reflexivity|]. cbn.
  rewrite (H e) by (apply elem_of_cons; now left).
  apply IH. intros e' He'. apply H. apply elem_of_cons. now right.
Qed.

Lemma existsb_false_elem {A} (f : A -> bool) (l : list A) (x : A) :
  existsb f l = false -> x ∈ l -> f x = false.
Proof.
  intros H Hin. apply list_elem_of_In in Hin.
  destruct (f x) eqn:E; [|reflexivity].
  assert (existsb f l = true) by (apply existsb_exists; eauto). congruence.
Qed.

Lemma existsb_first {A} (f : A -> bool) (l : list A) :
  existsb f l = true ->
  exists l1 x l2, l = (l1 ++ x :: l2)%list /\ existsb f l1 = false
                  /\ f x = true.
Proof.
  induction l as [|y l IH]; [discriminate|]. cbn.
  destruct (f y) eqn:Hy.
  - intros _. exists [], y, l. auto.
  - cbn. intros H. destruct (IH H) as (l1 & x & l2 & -> & H1 & Hx).
    exists (y :: l1), x, l2. cbn. rewrite Hy. auto.
Qed.

(** Before the timer, events that are no hit leave the wait as it
    started. *)
Lemma legacy_quiet (tr : list LegacyWait.Event) :
  existsb (LegacyWait.hit sentId) tr = false -> LegacyWait.Timer ∉ tr ->
  fold_left lstep tr LegacyWait.start = LegacyWait.start.
Proof.
  intros Hhit Htimer. apply legacy_run_fix. intros e He.
  pose proof (existsb_false_elem _ _ _ Hhit He) as Hq.
  destruct e as [id ack|]; [|contradiction].
  cbn in Hq |- *. unfold LegacyWait.onAck. cbn. now rewrite Hq.
Qed.

(** Once the timer is not armed, events that are no hit change nothing. *)
Lemma legacy_idle (tr : list LegacyWait.Event) (s : LegacyWait.State) :
  LegacyWait.armed s = false ->
  existsb (LegacyWait.hit sentId) tr = false ->
  fold_left lstep tr s = s.
Proof.
  intros Harmed Hhit. apply legacy_run_fix. intros e He.
  pose proof (existsb_false_elem _ _ _ Hhit He) as Hq.
  destruct e as [id ack|]; cbn in Hq |- *.
  - unfold LegacyWait.onAck. rewrite Hq. now destruct (LegacyWait.listening s).
  - unfold LegacyWait.onTimer. now rewrite Harmed.
Qed.

(** After a hit the wait is over: nothing changes it. *)
Lemma legacy_done (tr : list LegacyWait.Event) (l : list bool) :
  fold_left lstep tr (LegacyWait.mk false false l) = LegacyWait.mk false false l.
Proof. apply legacy_run_fix. intros [id ack|] _; reflexivity. Qed.

Lemma legacy_calls_grow (tr : list LegacyWait.Event) (s : LegacyWait.State) :
  exists l, LegacyWait.calls (fold_left lstep tr s)
            = (LegacyWait.calls s ++ l)%list.
Proof.
  revert s. induction tr as [|e tr IH]; intros s.
  - exists []. cbn. now rewrite app_nil_r.
  - cbn. destruct (IH (lstep s e)) as (l & ->).
    assert (H : exists l0, LegacyWait.calls (lstep s e)
                           = (LegacyWait.calls s ++ l0)%list).
    { destruct e as [id ack|]; cbn.
      - unfold LegacyWait.onAck. destruct (LegacyWait.listening s);
          [destruct (LegacyWait.matches _ _ _)|]; cbn; eauto;
          exists []; now rewrite app_nil_r.
      - unfold LegacyWait.onTimer. destruct (LegacyWait.armed s); cbn; eauto.
        exists []. now rewrite app_nil_r. }
    destruct H as (l0 & ->). exists (l0 ++ l)%list. now rewrite app_assoc.
Qed.

(** X19. In the earlier [server.js] the promise holds [true] exactly when
    an ack for the sent message at the level server or above came before the
    timer of ten seconds: the reply says [server] then, and [pending]
    otherwise. *)
Theorem legacy_acked_before_timer (pre post : list LegacyWait.Event) :
  LegacyWait.Timer ∉ pre ->
  LegacyWait.acked (LegacyWait.run sentId (pre ++ LegacyWait.Timer :: post))
  = Some (existsb (LegacyWait.hit sentId) pre).
Proof.
  intros Htimer. unfold LegacyWait.run. rewrite fold_left_app.
  destruct (existsb (LegacyWait.hit sentId) pre) eqn:Hhit.
  - apply existsb_first in Hhit as (p1 & e & p2 & -> & H1 & He).
    apply not_elem_of_app in Htimer as [Ht1 _].
    rewrite fold_left_app, (legacy_quiet _ H1 Ht1).
    destruct e as [id ack|]; [|discriminate]. cbn in He.
    cbn [fold_left LegacyWait.step]. unfold LegacyWait.onAck at 1.
    cbn [LegacyWait.listening LegacyWait.start]. rewrite He.
    cbn [LegacyWait.calls LegacyWait.start app].
    rewrite legacy_done. unfold LegacyWait.onTimer. cbn [LegacyWait.armed].
    now rewrite legacy_done.
  - rewrite (legacy_quiet _ Hhit Htimer). cbn [fold_left LegacyWait.step].
    destruct (legacy_calls_grow post (LegacyWait.onTimer LegacyWait.start))
      as (l & Hl).
    unfold LegacyWait.acked. change (fold_left lstep post ?x)
      with (fold_left (LegacyWait.step sentId) post x) in Hl.
    now rewrite Hl.
Qed.

(** X21. In the earlier [server.js] a timeout leaves the listener
    registered: it stays through every later event that is no ack for the
    sent message, and such an ack, when it comes, calls [resolve] a second
    time. *)
Theorem legacy_listener_outlives_timeout
    (pre mid : list LegacyWait.Event) :
  LegacyWait.Timer ∉ pre ->
  existsb (LegacyWait.hit sentId) pre = false ->
  existsb (LegacyWait.hit sentId) mid = false ->
  LegacyWait.listening
    (LegacyWait.run sentId (pre ++ LegacyWait.Timer :: mid)) = true /\
  (forall id ack,
     LegacyWait.matches sentId id ack = true ->
     LegacyWait.calls
       (LegacyWait.run sentId
          (pre ++ LegacyWait.Timer :: mid ++ [LegacyWait.Ack id ack]))
     = [false; true]).
Proof.
  intros Htimer Hpre Hmid. unfold LegacyWait.run.
  split.
  - rewrite fold_left_app, (legacy_quiet _ Hpre Htimer).
    cbn [fold_left LegacyWait.step].
    now rewrite (legacy_idle mid (LegacyWait.onTimer LegacyWait.start)
                   eq_refl Hmid).
  - intros id ack Hm.
    rewrite fold_left_app, (legacy_quiet _ Hpre Htimer).
    cbn [fold_left LegacyWait.step]. rewrite fold_left_app.
    rewrite (legacy_idle mid (LegacyWait.onTimer LegacyWait.start)
               eq_refl Hmid).
    cbn. unfold LegacyWait.onAck. cbn. now rewrite Hm.
Qed.

End LegacyWaitProperties.

(** ** The statements on concrete requests *)

Module Examples.

Import Sample.

(** A wait for the level read: the event at the level device passes,
    the timer fires. *)
Lemma timedOut_iff_example :
  exists c r,
    closures (run decimal Guarded init
                (Call sent (JNum (Fin 3)) (Fin 5000)
                 :: [Emit (Some sent) (Fin 2)] ++ Fire 0 :: [])) !! 0
    = Some c /\
    resolved c = [r] /\
    (Resolution.timedOut r = true <->
     ~ exists msg a,
         Emit msg a ∈ [Emit (Some sent) (Fin 2)] /\
         serializedId msg = JStr "true_1203A@g.us_3EB0" /\
         reaches decimal a (JNum (Fin 3)) = Ok true).
Proof.
  apply (timedOut_iff decimal [] sent (JNum (Fin 3)) (Fin 5000)
           [Emit (Some sent) (Fin 2)] [] "true_1203A@g.us_3EB0").
  - reflexivity.
  - discriminate.
  - apply not_elem_of_cons. split; [discriminate | apply not_elem_of_nil].
Defined.

(** Two waits in flight, for [sent] and for [other]. *)
Lemma waits_isolated_example :
  closures (step decimal Guarded
              (run decimal Guarded
                 (run decimal Guarded (run decimal Guarded init [])
                    [Call sent (JNum (Fin 2)) (Fin 5000)])
                 [Call other (JNum (Fin 2)) (Fin 5000)])
              (Emit (Some sent) (Fin 2))) !! 1
  = closures (run decimal Guarded
                (run decimal Guarded (run decimal Guarded init [])
                   [Call sent (JNum (Fin 2)) (Fin 5000)])
                [Call other (JNum (Fin 2)) (Fin 5000)]) !! 1.
Proof.
  refine (proj1 (waits_isolated decimal Guarded [] sent (JNum (Fin 2))
                   (Fin 5000) [] other (JNum (Fin 2)) (Fin 5000) [] _)
            (Some sent) (Fin 2) eq_refl).
  vm_compute. discriminate.
Defined.

(** The spec's example: device, then read, then played, waiting for
    read. *)
Lemma first_qualifying_wins_example :
  exists c,
    closures (run decimal Guarded init
                (Call sent (JNum (Fin 3)) (Fin 5000)
                 :: [Emit (Some sent) (Fin 2)]
                    ++ Emit (Some sent) (Fin 3)
                    :: [Emit (Some sent) (Fin 4); Fire 0])) !! 0
    = Some c /\
    resolved c = [Resolution.mk (Fin 3) false] /\
    promise c = Some (Resolution.mk (Fin 3) false).
Proof.
  apply (first_qualifying_wins decimal [] sent (JNum (Fin 3)) (Fin 5000)
           [Emit (Some sent) (Fin 2)] [Emit (Some sent) (Fin 4); Fire 0]
           (Some sent) (Fin 3) "true_1203A@g.us_3EB0").
  - reflexivity.
  - discriminate.
  - apply not_elem_of_cons. split; [discriminate | apply not_elem_of_nil].
  - intros msg' a Hin _. apply list_elem_of_singleton in Hin.
    injection Hin as -> ->. vm_compute. discriminate.
  - reflexivity.
  - vm_compute. reflexivity.
Defined.

(** A request with a group identifier and the name of another group: the
    identifier is the target, though no chat of the listing has it. *)
Lemma groupId_before_name_example :
  prepare decimal cfg true transport
    (body (JStr "hi") (JStr "Release Notices") (JStr " 1203Z@g.us ")
       JUndefined JUndefined)
  = Ok (Send {| chatId := "1203Z@g.us"; text := "hi"; ackName := "device";
                minAck := JNum (Fin 2); waitMs := Fin 20000 |}).
Proof.
  refine (proj1 (proj1 (proj2 (groupId_before_name decimal cfg transport
                                 (body (JStr "hi") (JStr "Release Notices")
                                    (JStr " 1203Z@g.us ") JUndefined
                                    JUndefined)))
                   "Release Notices" "1203Z@g.us" "hi"
                   {| name := "device"; code := JNum (Fin 2) |} (Fin 20000)
                   eq_refl eq_refl _ eq_refl _ eq_refl eq_refl));
    discriminate.
Defined.

(** The same identifiers in the earlier [server.js]: the identifier of a
    contact is refused 400 and an unknown identifier 404, where [part_002]
    takes either as the target. *)
Lemma legacy_groupId_refused :
  Legacy.resolve_chat directory "4915@c.us" "release notices"
  = Ok (Refused (fail 400 "groupId is not a group")) /\
  Legacy.resolve_chat directory "1203Z@g.us" "release notices"
  = Ok (Refused (fail 404 "groupId not found")) /\
  resolve_chat directory "4915@c.us" "release notices"
  = Ok (Found "4915@c.us") /\
  resolve_chat directory "1203Z@g.us" "release notices"
  = Ok (Found "1203Z@g.us").
Proof. repeat split; vm_compute; reflexivity. Qed.

Lemma validation_after_readiness_example :
  send_group decimal Guarded cfg true transport
    (body (JStr "   ") (JStr "Release Notices") JUndefined (JStr "read")
       (JNum (Fin 5000))) init []
  = Some (fail 400 "message is required").
Proof.
  apply (proj1 (proj2 (validation_after_readiness decimal Guarded cfg
                         transport
                         (body (JStr "   ") (JStr "Release Notices")
                            JUndefined (JStr "read") (JNum (Fin 5000)))
                         init [] eq_refl))
           "Release Notices" "");
    reflexivity.
Defined.

(** A request that is not ready is answered 503, not 400, though its
    message is empty. *)
Lemma empty_message_not_ready :
  authorized cfg (body (JStr "") (JStr "Release Notices") JUndefined
                    JUndefined JUndefined) = true /\
  field (Body.message (body (JStr "") (JStr "Release Notices") JUndefined
                         JUndefined JUndefined)) = Ok "" /\
  send_group decimal Guarded cfg false transport
    (body (JStr "") (JStr "Release Notices") JUndefined JUndefined JUndefined)
    init []
  = Some (fail 503 "whatsapp not ready") /\
  ~ exists r,
      send_group decimal Guarded cfg false transport
        (body (JStr "") (JStr "Release Notices") JUndefined JUndefined
           JUndefined) init [] = Some r /\
      status r = 400%Z.
Proof.
  split; [reflexivity|]. split; [reflexivity|]. split; [reflexivity|].
  intros (r & Hr & Hs). vm_compute in Hr. injection Hr as <-.
  discriminate Hs.
Qed.

(** The spec's example: nothing arrives within the five seconds. *)
Lemma timeout_is_success_example :
  send_group decimal Guarded cfg true transport
    (body (JStr "build passed") JUndefined (JStr "1203A@g.us") (JStr "read")
       (JNum (Fin 5000)))
    (run decimal Guarded init [])
    ([Emit (Some other) (Fin 3)] ++ Fire 0 :: [])
  = Some {| status := 200;
            json := SentJson
              {| ok := true; groupId := "1203A@g.us";
                 messageId := JStr "true_1203A@g.us_3EB0";
                 ack := JStr "error"; timedOut := true;
                 waitedFor := "read"; timeoutMs := Fin 5000 |} |}.
Proof.
  refine (proj1 (timeout_is_success decimal cfg transport
                   (body (JStr "build passed") JUndefined (JStr "1203A@g.us")
                      (JStr "read") (JNum (Fin 5000)))
                   [] [Emit (Some other) (Fin 3)] []
                   {| chatId := "1203A@g.us"; text := "build passed";
                      ackName := "read"; minAck := JNum (Fin 3);
                      waitMs := Fin 5000 |}
                   sent eq_refl eq_refl eq_refl _ _)).
  - apply not_elem_of_cons. split; [discriminate | apply not_elem_of_nil].
  - intros msg a Hin. apply list_elem_of_singleton in Hin.
    injection Hin as -> ->. reflexivity.
Defined.

Lemma startup_guards_example :
  startup decimal Guarded (<["WA_BACKUP_MS" := "5000"]> env) = Exit 1 /\
  startup decimal Guarded env = Serve cfg.
Proof.
  split.
  - apply (proj1 (proj1 (startup_guards decimal Guarded
                           (<["WA_BACKUP_MS" := "5000"]> env)))).
    right. right. right. exists 5000%Z.
    split; [reflexivity | lia].
  - apply (proj2 (proj1 (startup_guards decimal Guarded env))).
    intros [[[H|H]|[H|H]]|[H|[H|(z & H & Hz)]]];
      try (vm_compute in H; discriminate H).
    vm_compute in H. injection H as <-. lia.
Defined.

(** With the secret and the store set and an interval of five seconds,
    which is not zero and below a minute, the earlier [server.js] does not
    exit: it goes on to serve, without backup. *)
Lemma legacy_small_interval_serves :
  invalid_interval
    (decimal (env_nullish (<["WA_BACKUP_MS" := "5000"]> env)
                "WA_BACKUP_MS" "0")) /\
  Legacy.startup decimal (<["WA_BACKUP_MS" := "5000"]> env)
  = Legacy.Serve None /\
  startup decimal Guarded (<["WA_BACKUP_MS" := "5000"]> env) = Exit 1.
Proof.
  split; [|split; vm_compute; reflexivity].
  right. right. exists 5000%Z. split; [reflexivity | lia].
Qed.

(** A request with [timeoutMs: 0] arms its timer with the configured
    default. *)
Lemma timeoutMs_default_example :
  exists w1,
    awaiting decimal cfg true transport
      (body (JStr "hi") JUndefined (JStr "1203A@g.us") JUndefined
         (JNum (Fin 0))) init
    = Waiting {| chatId := "1203A@g.us"; text := "hi"; ackName := "device";
                 minAck := JNum (Fin 2); waitMs := Fin 20000 |}
        sent 0 w1 /\
    timers w1 = ([] ++ [(0%nat, Fin 20000)])%list.
Proof.
  refine (proj2 (timeoutMs_default decimal cfg true transport
                   (body (JStr "hi") JUndefined (JStr "1203A@g.us")
                      JUndefined (JNum (Fin 0)))
                   init)
            "" "1203A@g.us" "hi" {| name := "device"; code := JNum (Fin 2) |}
            "1203A@g.us" sent (Fin 20000)
            eq_refl eq_refl eq_refl eq_refl eq_refl _ eq_refl eq_refl eq_refl
            (or_introl (conj eq_refl eq_refl))).
  discriminate.
Defined.

End Examples.

(** ** The further statements on concrete requests *)

Module MoreExamples.

Import Sample.

Lemma sent_text_trimmed_example :
  "build passed" <> "" /\ Str.trim "build passed" = "build passed" /\
  (forall groupId,
     field (JStr " 1203A@g.us ") = Ok groupId -> groupId <> "" ->
     Str.trim "1203A@g.us" = "1203A@g.us").
Proof.
  exact (sent_text_trimmed decimal cfg true transport
           (body (JStr "  build passed ") JUndefined (JStr " 1203A@g.us ")
              JUndefined JUndefined)
           {| chatId := "1203A@g.us"; text := "build passed";
              ackName := "device"; minAck := JNum (Fin 2);
              waitMs := Fin 20000 |} eq_refl).
Defined.

Lemma ok_only_after_send_example :
  authorized cfg (body (JStr "hi") JUndefined (JStr "1203A@g.us")
                    (JStr "server") JUndefined) = true /\ true = true /\
  exists p m res,
    prepare decimal cfg true transport
      (body (JStr "hi") JUndefined (JStr "1203A@g.us") (JStr "server")
         JUndefined) = Ok (Send p) /\
    sendMessage transport (chatId p) (text p) = Ok m /\
    SentJson
      {| ok := true; groupId := "1203A@g.us";
         messageId := JStr "true_1203A@g.us_3EB0"; ack := JStr "device";
         timedOut := false; waitedFor := "server"; timeoutMs := Fin 20000 |}
    = SentJson
        {| ok := true; groupId := chatId p; messageId := messageId_of Guarded m;
           ack := ackStr (Resolution.ack res);
           timedOut := Resolution.timedOut res;
           waitedFor := ackName p; timeoutMs := waitMs p |}.
Proof.
  exact (ok_only_after_send decimal Guarded cfg true transport
           (body (JStr "hi") JUndefined (JStr "1203A@g.us") (JStr "server")
              JUndefined)
           init [Emit (Some sent) (Fin 2)]
           {| status := 200;
              json := SentJson
                {| ok := true; groupId := "1203A@g.us";
                   messageId := JStr "true_1203A@g.us_3EB0";
                   ack := JStr "device"; timedOut := false;
                   waitedFor := "server"; timeoutMs := Fin 20000 |} |}
           eq_refl eq_refl).
Defined.

Lemma unconvertible_field_500_example :
  send_group decimal Guarded cfg true transport
    (body (JStr "") (JObj [("toString", JNum (Fin 1))]) JUndefined
       JUndefined JUndefined) init []
  = Some (fail 500 "send failed").
Proof.
  apply (unconvertible_field_500 decimal Guarded cfg true transport
           (body (JStr "") (JObj [("toString", JNum (Fin 1))]) JUndefined
              JUndefined JUndefined)
           init [] [("toString", JNum (Fin 1))]).
  - reflexivity.
  - reflexivity.
  - left. reflexivity.
Defined.

Lemma falsy_message_400_example :
  send_group decimal Guarded cfg true transport
    (body (JNum (Fin 0)) (JStr "Release Notices") JUndefined JUndefined
       JUndefined) init []
  = Some (fail 400 "message is required").
Proof.
  apply (falsy_message_400 decimal Guarded cfg transport
           (body (JNum (Fin 0)) (JStr "Release Notices") JUndefined JUndefined
              JUndefined)
           init [] "Release Notices" "").
  - reflexivity.
  - reflexivity.
  - reflexivity.
  - left. reflexivity.
Defined.

Lemma group_name_normalised_example :
  prepare decimal cfg true transport
    (Body.mk (JStr "s3cret") (JStr " RELEASE notices ") JUndefined (JStr "hi")
       JUndefined JUndefined)
  = prepare decimal cfg true transport
      (Body.mk (JStr "s3cret") (JStr "release notices") JUndefined (JStr "hi")
         JUndefined JUndefined).
Proof.
  apply (group_name_normalised decimal cfg true transport
           " RELEASE notices " "release notices").
  reflexivity.
Defined.

Lemma name_resolves_to_listed_group_example :
  exists chats c,
    getChats transport = Ok chats /\ c ∈ chats /\ Chat.isGroup c = true /\
    Chat.id c = "1203A@g.us" /\
    Str.toLowerCase (default "" (Chat.name c))
    = Str.toLowerCase "Release Notices".
Proof.
  apply (name_resolves_to_listed_group transport "Release Notices"
           "1203A@g.us").
  reflexivity.
Defined.

Lemma legacy_targets_groups_example :
  exists c,
    Chat.isGroup c = true /\ Chat.id c = "1203B@g.us" /\
    (("1203B@g.us" <> "" /\
      getChatById
        {| getChats := Throw;
           getChatById := fun _ => Ok (Some (Chat.mk true None "1203B@g.us"));
           sendMessage := fun _ _ => Throw |} "1203B@g.us" = Ok (Some c)) \/
     ("1203B@g.us" = "" /\
      exists chats,
        getChats
          {| getChats := Throw;
             getChatById := fun _ => Ok (Some (Chat.mk true None "1203B@g.us"));
             sendMessage := fun _ _ => Throw |} = Ok chats /\ c ∈ chats)).
Proof.
  apply (legacy_targets_groups
           {| getChats := Throw;
              getChatById := fun _ => Ok (Some (Chat.mk true None "1203B@g.us"));
              sendMessage := fun _ _ => Throw |}
           "1203B@g.us" "").
  reflexivity.
Defined.

Lemma level_name_round_trip_example :
  In ("read", Fin 3) [("server", Fin 1); ("device", Fin 2); ("read", Fin 3);
                      ("played", Fin 4)] /\
  ackStr (Fin 3) = JStr "read".
Proof.
  exact (level_name_round_trip (JStr "Read") "device"
           {| name := "read"; code := JNum (Fin 3) |} (Fin 3)
           eq_refl eq_refl).
Defined.

Lemma absent_ack_default_example :
  parseAckLevel JNull (ACK_LEVEL_DEFAULT (load decimal Guarded env))
  = parseAckLevel (JStr (env_or env "ACK_LEVEL_DEFAULT" "device")) "device" /\
  (missing env "ACK_LEVEL_DEFAULT" ->
   parseAckLevel JNull (ACK_LEVEL_DEFAULT (load decimal Guarded env))
   = Ok {| name := "device"; code := JNum (Fin 2) |}).
Proof.
  apply (absent_ack_default decimal Guarded env JNull). reflexivity.
Defined.

(** Startup with an interval of ten minutes, and a backup directory
    that cannot be made. *)
Lemma backup_after_startup_example :
  backup_scheduled (load decimal Guarded (<["WA_BACKUP_MS" := "600000"]> env))
    Throw = false /\
  Health.backup
    (healthz (load decimal Guarded (<["WA_BACKUP_MS" := "600000"]> env)) true)
  = Health.Every (Fin 600000) "/tmp".
Proof.
  refine (proj2 (proj2 (proj2
            (backup_after_startup decimal Guarded
               (<["WA_BACKUP_MS" := "600000"]> env)
               (load decimal Guarded (<["WA_BACKUP_MS" := "600000"]> env))
               true Throw _))) _ eq_refl).
  - vm_compute. reflexivity.
  - vm_compute. discriminate.
Defined.

Lemma timer_armed_until_fired_example :
  pending 0
    (run decimal Guarded (run decimal Guarded init [])
       (Call sent (JNum (Fin 2)) (Fin 5000) :: [Emit (Some sent) (Fin 2)]))
  = true.
Proof.
  apply (timer_armed_until_fired decimal Guarded [] sent (JNum (Fin 2))
           (Fin 5000) [Emit (Some sent) (Fin 2)]).
  apply not_elem_of_cons. split; [discriminate | apply not_elem_of_nil].
Defined.

Lemma resolutions_justified_example :
  reaches decimal (Fin 3) (JNum (Fin 2)) = Ok true.
Proof.
  refine (resolutions_justified decimal Guarded
            [Call sent (JNum (Fin 2)) (Fin 5000); Emit (Some sent) (Fin 3)]
            0
            {| targetId := JStr "true_1203A@g.us_3EB0";
               minAckCode := JNum (Fin 2); message := sent;
               settled := true; resolved := [Resolution.mk (Fin 3) false] |}
            (Resolution.mk (Fin 3) false) eq_refl _).
  apply list_elem_of_singleton. reflexivity.
Defined.

Lemma answered_by_timer_example :
  exists r,
    send_group decimal Compact cfg true transport
      (body (JStr "hi") JUndefined (JStr "1203A@g.us") (JStr "played")
         JUndefined)
      (run decimal Compact init []) [Emit (Some sent) (Fin 3); Fire 0]
    = Some r /\
    status r = 200%Z.
Proof.
  apply (answered_by_timer decimal Compact cfg true transport
           (body (JStr "hi") JUndefined (JStr "1203A@g.us") (JStr "played")
              JUndefined)
           [] [Emit (Some sent) (Fin 3); Fire 0]
           {| chatId := "1203A@g.us"; text := "hi"; ackName := "played";
              minAck := JNum (Fin 4); waitMs := Fin 20000 |}
           sent eq_refl eq_refl eq_refl).
  apply elem_of_cons. right. apply elem_of_cons. left. reflexivity.
Defined.

Lemma reply_is_outcome_example :
  send_group decimal Guarded cfg true transport
    (body (JStr "hi") JUndefined (JStr "1203A@g.us") (JStr "played")
       JUndefined)
    (run decimal Guarded init []) [Emit (Some sent) (Fin 3)]
  = respond Guarded
      {| chatId := "1203A@g.us"; text := "hi"; ackName := "played";
         minAck := JNum (Fin 4); waitMs := Fin 20000 |} sent
      <$> outcome decimal (length (closures (run decimal Guarded init [])))
            (serializedId (Some sent)) (JNum (Fin 4)) (lastKnown sent)
            [Emit (Some sent) (Fin 3)].
Proof.
  exact (reply_is_outcome decimal cfg true transport
           (body (JStr "hi") JUndefined (JStr "1203A@g.us") (JStr "played")
              JUndefined)
           [] [Emit (Some sent) (Fin 3)]
           {| chatId := "1203A@g.us"; text := "hi"; ackName := "played";
              minAck := JNum (Fin 4); waitMs := Fin 20000 |}
           sent eq_refl eq_refl eq_refl).
Defined.

Lemma revisions_agree_example :
  run decimal Guarded init
    [Call sent (JNum (Fin 2)) (Fin 5000); Emit (Some other) (Fin 3);
     Emit (Some sent) (Fin 2); Fire 0]
  = run decimal Compact init
      [Call sent (JNum (Fin 2)) (Fin 5000); Emit (Some other) (Fin 3);
       Emit (Some sent) (Fin 2); Fire 0].
Proof.
  apply (revisions_agree decimal).
  intros m minAck t Hin.
  apply elem_of_cons in Hin as [Hin|Hin].
  - injection Hin as -> -> ->. split.
    + exists "true_1203A@g.us_3EB0". split; [reflexivity | discriminate].
    + exists (Fin 2). reflexivity.
  - exfalso. repeat (apply elem_of_cons in Hin as [Hin|Hin];
                     [discriminate|]).
    now apply elem_of_nil in Hin.
Defined.

Lemma legacy_acked_before_timer_example :
  LegacyWait.acked
    (LegacyWait.run "true_1203A@g.us_3EB0"
       ([LegacyWait.Ack "true_1203B@g.us_77AA" (Fin 2);
         LegacyWait.Ack "true_1203A@g.us_3EB0" (Fin 1)]
        ++ LegacyWait.Timer :: []))
  = Some (existsb (LegacyWait.hit "true_1203A@g.us_3EB0")
            [LegacyWait.Ack "true_1203B@g.us_77AA" (Fin 2);
             LegacyWait.Ack "true_1203A@g.us_3EB0" (Fin 1)]).
Proof.
  apply (legacy_acked_before_timer "true_1203A@g.us_3EB0").
  apply not_elem_of_cons. split; [discriminate|].
  apply not_elem_of_cons. split; [discriminate | apply not_elem_of_nil].
Defined.

Lemma legacy_listener_outlives_timeout_example :
  LegacyWait.listening
    (LegacyWait.run "true_1203A@g.us_3EB0"
       ([] ++ LegacyWait.Timer
           :: [LegacyWait.Ack "true_1203B@g.us_77AA" (Fin 2)])) = true /\
  (forall id ack,
     LegacyWait.matches "true_1203A@g.us_3EB0" id ack = true ->
     LegacyWait.calls
       (LegacyWait.run "true_1203A@g.us_3EB0"
          ([] ++ LegacyWait.Timer
              :: [LegacyWait.Ack "true_1203B@g.us_77AA" (Fin 2)]
                 ++ [LegacyWait.Ack id ack]))
     = [false; true]).
Proof.
  apply (legacy_listener_outlives_timeout "true_1203A@g.us_3EB0" []
           [LegacyWait.Ack "true_1203B@g.us_77AA" (Fin 2)]).
  - apply not_elem_of_nil.
  - reflexivity.
  - reflexivity.
Defined.

End MoreExamples.
